(** * GlobalActionManager: the tomahawk:// action-link protocol

    A shallow embedding of [GlobalActionManager] (globalactionmanager.cpp):
    the link parser and command router, the station builder, the outbound
    link encoder, the resolve-then-play slot and the text payload
    classifier, followed by the properties checked against the
    specification. *)

From Stdlib Require Import String Ascii List Bool Arith ZArith Lia.
Import ListNotations.
Local Open Scope string_scope.

(** ** QString / QStringList operations used by the source *)

Module QStr.

(** [QString::startsWith], by recursion on the prefix looked for. *)
Fixpoint startsWith (s t : string) {struct t} : bool :=
  match t with
  | EmptyString => true
  | String b t' =>
      match s with
      | EmptyString => false
      | String a s' => Ascii.eqb a b && startsWith s' t'
      end
  end.

(** [QString::contains( t )], case sensitive. *)
Fixpoint contains (s t : string) : bool :=
  startsWith s t ||
  match s with
  | EmptyString => false
  | String _ r => contains r t
  end.

(** [QString::mid( n )]: the text from position [n] on. *)
Fixpoint mid (n : nat) (s : string) : string :=
  match n, s with
  | O, _ => s
  | S k, String _ r => mid k r
  | S _, EmptyString => EmptyString
  end.

Fixpoint rev_acc (s acc : string) : string :=
  match s with
  | EmptyString => acc
  | String c r => rev_acc r (String c acc)
  end.

Definition rev (s : string) : string := rev_acc s EmptyString.

(** [QString::endsWith]. *)
Definition endsWith (s t : string) : bool := startsWith (rev s) (rev t).

(** [QString::replace( before, after )] for a non-empty [before]: every
    occurrence, left to right, without rescanning the inserted text.
    [skip] counts the characters of a matched occurrence still to drop. *)
Fixpoint replace_from (skip : nat) (before after s : string) : string :=
  match s with
  | EmptyString => EmptyString
  | String c r =>
      match skip with
      | S k => replace_from k before after r
      | O =>
          if startsWith s before
          then after ++ replace_from (String.length before - 1) before after r
          else String c (replace_from 0 before after r)
      end
  end.

Definition replace (before after s : string) : string :=
  replace_from 0 before after s.

(** [QString::split( sep )] on a one-character separator, keeping empty
    parts; the result is never empty. *)
Fixpoint split (sep : ascii) (s : string) : list string :=
  match s with
  | EmptyString => [EmptyString]
  | String c r =>
      if Ascii.eqb c sep then EmptyString :: split sep r
      else match split sep r with
           | [] => [String c EmptyString]
           | h :: t => String c h :: t
           end
  end.

(** [QStringList::first] of a list that [split] produced. *)
Definition first (l : list string) : string := hd EmptyString l.

(** [QStringList::mid( 1 )]. *)
Definition mid1 (l : list string) : list string := tl l.

(** [QStringList::join( sep )]. *)
Fixpoint join (sep : string) (l : list string) : string :=
  match l with
  | [] => EmptyString
  | [x] => x
  | x :: t => x ++ sep ++ join sep t
  end.

Definition isEmpty (s : string) : bool :=
  match s with EmptyString => true | _ => false end.

(** [QString::toLower] on the ASCII letters. *)
Definition lower_char (c : ascii) : ascii :=
  let n := nat_of_ascii c in
  if ((65 <=? n)%nat && (n <=? 90)%nat)%bool then ascii_of_nat (n + 32) else c.

Fixpoint toLower (s : string) : string :=
  match s with
  | EmptyString => EmptyString
  | String c r => String (lower_char c) (toLower r)
  end.

Definition newline : string := String (ascii_of_nat 10) EmptyString.

End QStr.

(** ** External libraries

    Qt's URL class and the parameter enumerations of libechonest are used by
    the source but are not part of it.  A parsed [QUrl] is represented by
    what the source reads from it: [path()] and [queryItems()] (decoded
    key/value pairs in the order of the query string). *)

Record QUrl := mkQUrl {
  path : string;
  queryItems : list (string * string)
}.

(** [QUrl::hasQueryItem]. *)
Definition hasQueryItem (u : QUrl) (key : string) : bool :=
  existsb (fun p => String.eqb (fst p) key) (queryItems u).

(** [QUrl::queryItemValue]: the value of the first item with that key, or
    the empty string. *)
Definition queryItemValue (u : QUrl) (key : string) : string :=
  match find (fun p => String.eqb (fst p) key) (queryItems u) with
  | Some p => snd p
  | None => EmptyString
  end.

(** [url.path().split( "/" ).mid( 1 )]: "the rest of the command". *)
Definition commandParts (u : QUrl) : list string :=
  QStr.mid1 (QStr.split "/" (path u)).

(** The members of [Echonest::DynamicPlaylist::PlaylistParam] that the
    source names. *)
Inductive PlaylistParam :=
| Variety
| MaxTempo | MinTempo
| MaxDuration | MinDuration
| MaxLoudness | MinLoudness
| MinDanceability | MaxDanceability
| MinEnergy | MaxEnergy
| ArtistMaxFamiliarity | ArtistMinFamiliarity
| ArtistMaxHotttnesss | ArtistMinHotttnesss
| SongMaxHotttnesss | SongMinHotttnesss
| ArtistMinLongitude | ArtistMaxLongitude
| ArtistMinLatitude | ArtistMaxLatitude
| Mode | Key | Mood | Style.

(** The members of [Echonest::DynamicPlaylist::ArtistTypeEnum] that the
    source names. *)
Inductive ArtistTypeEnum :=
| ArtistType | ArtistRadioType | ArtistDescriptionType | SongRadioType.

(** What the source takes from outside: URL parsing and encoding, and the
    integer value of each enumerator (the source computes with them:
    [(int)MinTempo + extra]). *)
Class Libs := {
  (** [QUrl::fromEncoded( cmd.toUtf8() )] *)
  fromEncoded : string -> QUrl;
  (** the percent-encoding [QUrl::addQueryItem] and [toEncoded] apply to a
      key or a value *)
  toPercentEncoding : string -> string;
  (** [QUrl::fromUserInput( s ).toString()] *)
  fromUserInput : string -> string;
  (** [QFileInfo( QUrl::fromUserInput( s ).path() ).baseName()] *)
  urlBaseName : string -> string;
  (** [(int)Echonest::DynamicPlaylist::<param>] *)
  param_int : PlaylistParam -> Z;
  (** [(int)Echonest::DynamicPlaylist::<artist type>] *)
  artist_int : ArtistTypeEnum -> Z
}.

(** ** Collaborators, state and effects *)

(** A dynamic control as the station builder fills it:
    [createControl( selectedType )], [setInput], [setMatch]. *)
Record dyncontrol := mkControl {
  selectedType : string;
  input : string;
  match_ : Z
}.

Inductive GeneratorMode := OnDemand | Static.

(** Which slot a [SpotifyParser]'s [track] signal is connected to. *)
Inductive TrackSlot := SlotHandleOpenTrack | SlotSpotifyToPlay.

(** Calls the manager makes on its collaborators.  Objects ([Query],
    [Playlist]) are named by the number drawn when they were created. *)
Inductive event :=
| Log (msg : string)
| XSPFLoaderLoad (xspf : string) (overrideTitle : option string)
| JSPFLoaderLoad (jspf : string)
| PlaylistCreate (pl : nat) (title : string)
| ViewShow (pl : nat)
| QueryGet (q : nat) (artist title album : string)
| SetResultHint (q : nat) (hint : string)
| PipelineResolve (q : nat)
| ConnectResolvingFinished (q : nat)
| QueueAppend (q : nat)
| ShowQueue
| SpotifyParserNew (url : string) (slot : TrackSlot)
| ShowSuperCollection
| SetFilter (text : string)
| DynamicPlaylistCreate (pl : nat) (title : string) (m : GeneratorMode) (type : string)
| CreateNewRevision (pl : nat) (type : string) (controls : list dyncontrol) (withEntries : bool)
| AudioEnginePlay
| CreateBookmarksPlaylist
| ConnectBookmarkPlaylistCreated
| PlaylistAddEntry (pl : nat) (q : nat) (duration : nat)
| ConnectRevisionLoaded (pl : nat)
| SpotifyParserTracks (tracks : list string)
| RdioParserParse (tracks : list string)
| ShortenedLinkParserNew (tracks : list string)
| ClipboardSetText (data : string).

(** What the manager reads from its collaborators during one call. *)
Record Env := mkEnv {
  isPlaying : bool;                        (* AudioEngine::isPlaying() *)
  bookmarksPlaylist : option nat;          (* LocalCollection::bookmarksPlaylist() *)
  playable : nat -> bool;                  (* Query::playable() *)
  firstResultDuration : nat -> option nat  (* results().at( 0 )->duration(), if any *)
}.

(** The manager's members, and the counter naming new objects and uuids. *)
Record GAM := mkGAM {
  m_waitingToPlay : option nat;
  m_waitingToBookmark : option nat;
  m_toShow : option nat;
  next_id : nat
}.

(** A member function: reads the collaborators, updates the members,
    records its calls in order. *)
Definition M (A : Type) : Type := Env -> GAM -> A * GAM * list event.

Definition ret {A} (a : A) : M A := fun _ s => (a, s, []).

Definition bind {A B} (c : M A) (k : A -> M B) : M B :=
  fun e s =>
    let '(a, s1, l1) := c e s in
    let '(b, s2, l2) := k a e s1 in
    (b, s2, (l1 ++ l2)%list).

Declare Scope gam_scope.
Delimit Scope gam_scope with gam.
Notation "x <- c ;; k" := (bind c (fun x => k))
  (at level 61, c at next level, right associativity) : gam_scope.
Notation "c ;; k" := (bind c (fun _ => k))
  (at level 61, right associativity) : gam_scope.
Local Open Scope gam_scope.

Definition emit (ev : event) : M unit := fun _ s => (tt, s, [ev]).
Definition ask : M Env := fun e s => (e, s, []).
Definition get : M GAM := fun _ s => (s, s, []).

(** [uuid()], and the identity of a newly created object. *)
Definition fresh : M nat :=
  fun _ s => (next_id s,
              mkGAM (m_waitingToPlay s) (m_waitingToBookmark s) (m_toShow s) (S (next_id s)),
              []).

Definition set_waitingToPlay (q : option nat) : M unit :=
  fun _ s => (tt, mkGAM q (m_waitingToBookmark s) (m_toShow s) (next_id s), []).

Definition set_waitingToBookmark (q : option nat) : M unit :=
  fun _ s => (tt, mkGAM (m_waitingToPlay s) q (m_toShow s) (next_id s), []).

Definition set_toShow (p : option nat) : M unit :=
  fun _ s => (tt, mkGAM (m_waitingToPlay s) (m_waitingToBookmark s) p (next_id s), []).

(** The returned value, the members afterwards, and the calls made. *)
Definition result {A} (r : A * GAM * list event) : A := fst (fst r).
Definition after {A} (r : A * GAM * list event) : GAM := snd (fst r).
Definition calls {A} (r : A * GAM * list event) : list event := snd r.

(** [tLog()] / [tDebug()] / [qWarning()] lines are the only calls that touch
    no collaborator. *)
Definition is_log (ev : event) : bool :=
  match ev with Log _ => true | _ => false end.

Definition only_logs (l : list event) : bool := forallb is_log l.

(** ** The manager's member functions *)

Section Manager.
Context {L : Libs}.

Definition log (msg : string) : M unit := emit (Log msg).

(** [Query::get( artist, title, album, ... )]: a new query object. *)
Definition Query_get (artist title album : string) : M nat :=
  q <- fresh ;;
  emit (QueryGet q artist title album) ;;
  ret q.

(** The four locals [title, artist, album, urlStr] that the handlers fill
    in a [foreach] over the query items. *)
Record TrackFields := mkFields {
  f_title : string;
  f_artist : string;
  f_album : string;
  f_urlStr : string
}.

(** One iteration of that loop: an assignment to the local the key names. *)
Definition scanStep (f : TrackFields) (kv : string * string) : TrackFields :=
  if fst kv =? "title" then mkFields (snd kv) (f_artist f) (f_album f) (f_urlStr f)
  else if fst kv =? "artist" then mkFields (f_title f) (snd kv) (f_album f) (f_urlStr f)
  else if fst kv =? "album" then mkFields (f_title f) (f_artist f) (snd kv) (f_urlStr f)
  else if fst kv =? "url" then mkFields (f_title f) (f_artist f) (f_album f) (snd kv)
  else f.

Definition scanTrackFields (items : list (string * string)) : TrackFields :=
  fold_left scanStep items (mkFields EmptyString EmptyString EmptyString EmptyString).

Definition setHintIfAny (q : nat) (urlStr : string) : M unit :=
  if negb (QStr.isEmpty urlStr) then emit (SetResultHint q urlStr) else ret tt.

Definition handleOpenTrack (q : nat) : M unit :=
  emit (QueueAppend q) ;;
  emit ShowQueue ;;
  e <- ask ;;
  if negb (isPlaying e) then
    emit (ConnectResolvingFinished q) ;;
    set_waitingToPlay (Some q)
  else ret tt.

Definition openSpotifyLink (link : string) : M bool :=
  emit (SpotifyParserNew link SlotHandleOpenTrack) ;;
  ret true.

Definition spotifyStep (url : string) (kv : string * string) : string :=
  if fst kv =? "spotifyURL" then snd kv
  else if fst kv =? "spotifyURI" then snd kv
  else url.

Definition queueSpotify (parts : list string) (items : list (string * string)) : M bool :=
  let url := fold_left spotifyStep items EmptyString in
  if QStr.isEmpty url then ret false
  else openSpotifyLink url ;; ret true.

Definition doQueueAdd (parts : list string) (items : list (string * string)) : M bool :=
  match parts with
  | p0 :: _ =>
      if p0 =? "track" then
        sp <- queueSpotify parts items ;;
        if (sp : bool) then ret true
        else
          let f := scanTrackFields items in
          if negb (QStr.isEmpty (f_title f)) || negb (QStr.isEmpty (f_artist f))
             || negb (QStr.isEmpty (f_album f))
          then
            (* an individual query to add to the queue *)
            q <- Query_get (f_artist f) (f_title f) (f_album f) ;;
            setHintIfAny q (f_urlStr f) ;;
            emit (PipelineResolve q) ;;
            handleOpenTrack q ;;
            ret true
          else
            (* a list of urls: the loop returns at the first "url" item *)
            match find (fun kv => fst kv =? "url") items with
            | None => ret false
            | Some kv =>
                let track := fromUserInput (snd kv) in
                (if QStr.startsWith track "file://" then ret tt
                 else
                   q <- Query_get EmptyString (urlBaseName (snd kv)) EmptyString ;;
                   emit (SetResultHint q track) ;;
                   emit (PipelineResolve q) ;;
                   emit (QueueAppend q) ;;
                   emit ShowQueue) ;;
                ret true
            end
      else ret false
  | [] => ret false
  end.

Definition handlePlaylistCommand (url : QUrl) : M bool :=
  match commandParts url with
  | [] => log "No specific playlist command:" ;; ret false
  | p0 :: _ =>
      if p0 =? "import" then
        if negb (hasQueryItem url "xspf") then
          log "No xspf to load..." ;; ret false
        else
          let title := if hasQueryItem url "title"
                       then Some (queryItemValue url "title") else None in
          emit (XSPFLoaderLoad (queryItemValue url "xspf") title) ;;
          ret false
      else if p0 =? "new" then
        if negb (hasQueryItem url "title") then
          log "New playlist command needs a title..." ;; ret false
        else
          pl <- fresh ;;
          emit (PlaylistCreate pl (queryItemValue url "title")) ;;
          emit (ViewShow pl) ;;
          ret false
      else if p0 =? "add" then
        if negb (hasQueryItem url "playlistid") || negb (hasQueryItem url "title")
           || negb (hasQueryItem url "artist")
        then
          log "Add to playlist command needs playlistid, track, and artist..." ;;
          ret false
        else ret false
      else ret false
  end.

Definition handleCollectionCommand (url : QUrl) : M bool :=
  match commandParts url with
  | [] => log "No specific collection command:" ;; ret false
  | _ :: _ => ret false
  end.

Definition handleOpenCommand (url : QUrl) : M bool :=
  match commandParts url with
  | [] => log "No specific type to open:" ;; ret false
  | p0 :: rest => doQueueAdd (p0 :: rest) (queryItems url)
  end.

Definition handleQueueCommand (url : QUrl) : M bool :=
  match commandParts url with
  | [] => log "No specific queue command:" ;; ret false
  | p0 :: rest =>
      if p0 =? "add" then
        doQueueAdd rest (queryItems url) ;;
        ret false
      else
        log "Only queue/add/track is support at the moment, got:" ;;
        ret false
  end.

Definition handleSearchCommand (url : QUrl) : M bool :=
  let field k := if hasQueryItem url k then [queryItemValue url k] else [] in
  let queryStr := QStr.join " " (field "artist" ++ field "album" ++ field "title")%list in
  if QStr.isEmpty queryStr then ret false
  else
    emit ShowSuperCollection ;;
    emit (SetFilter queryStr) ;;
    ret true.

(** [int extra = param.first.endsWith( "_max" ) ? d : 0]. *)
Definition extra (name : string) (d : Z) : Z :=
  if QStr.endsWith name "_max" then d else 0%Z.

(** The branch of the station builder's [if]/[else if] chain that a
    parameter takes, and the control it appends; [None] when no branch
    matches. *)
Definition controlOf (param : string * string) : option dyncontrol :=
  let k := fst param in
  let v := snd param in
  if k =? "artist" then
    Some (mkControl "Artist" v (artist_int ArtistRadioType))
  else if k =? "artist_limitto" then
    Some (mkControl "Artist" v (artist_int ArtistType))
  else if k =? "description" then
    Some (mkControl "Artist Description" v (artist_int ArtistDescriptionType))
  else if k =? "variety" then
    Some (mkControl "Variety" v (param_int Variety))
  else if QStr.startsWith k "tempo" then
    Some (mkControl "Tempo" v (param_int MinTempo + extra k (-1)))
  else if QStr.startsWith k "duration" then
    Some (mkControl "Duration" v (param_int MinDuration + extra k (-1)))
  else if QStr.startsWith k "loudness" then
    Some (mkControl "Loudness" v (param_int MinLoudness + extra k (-1)))
  else if QStr.startsWith k "danceability" then
    Some (mkControl "Danceability" v (param_int MinDanceability + extra k 1))
  else if QStr.startsWith k "energy" then
    Some (mkControl "Energy" v (param_int MinEnergy + extra k 1))
  else if QStr.startsWith k "artist_familiarity" then
    Some (mkControl "Artist Familiarity" v (param_int ArtistMinFamiliarity + extra k (-1)))
  else if QStr.startsWith k "artist_hotttnesss" then
    Some (mkControl "Artist Hotttnesss" v (param_int ArtistMinHotttnesss + extra k (-1)))
  else if QStr.startsWith k "song_hotttnesss" then
    Some (mkControl "Song Hotttnesss" v (param_int SongMinHotttnesss + extra k (-1)))
  else if QStr.startsWith k "longitude" then
    Some (mkControl "Longitude" v (param_int ArtistMinLongitude + extra k 1))
  else if QStr.startsWith k "latitude" then
    Some (mkControl "Latitude" v (param_int ArtistMinLatitude + extra k 1))
  else if k =? "key" then
    Some (mkControl "Key" v (param_int Key))
  else if k =? "mode" then
    Some (mkControl "Mode" v (param_int Mode))
  else if k =? "mood" then
    Some (mkControl "Mood" v (param_int Mood))
  else if k =? "style" then
    Some (mkControl "Style" v (param_int Style))
  else if k =? "song" then
    Some (mkControl "Song" v (artist_int SongRadioType))
  else None.

(** What one parameter contributes to the control list. *)
Definition contribution (param : string * string) : list dyncontrol :=
  match controlOf param with
  | Some c => [c]
  | None => []
  end.

(** One iteration of [foreach( param, url.queryItems() )]:
    [controls << c] when a branch matched. *)
Definition controlStep (controls : list dyncontrol) (param : string * string)
  : list dyncontrol :=
  match controlOf param with
  | Some c => (controls ++ [c])%list
  | None => controls
  end.

(** The control list the loop of [loadDynamicPlaylist] builds. *)
Definition buildControls (items : list (string * string)) : list dyncontrol :=
  fold_left controlStep items [].

Definition loadDynamicPlaylist (url : QUrl) (station : bool) : M (option nat) :=
  match commandParts url with
  | [] => log "No specific station command:" ;; ret None
  | p0 :: _ =>
      if p0 =? "create" then
        if negb (hasQueryItem url "title") || negb (hasQueryItem url "type") then
          log "Station create command needs title and type..." ;;
          ret None
        else
          let title := queryItemValue url "title" in
          let type := queryItemValue url "type" in
          let m := if station then OnDemand else Static in
          pl <- fresh ;;
          emit (DynamicPlaylistCreate pl title m type) ;;
          let controls := buildControls (queryItems url) in
          match m with
          | OnDemand => emit (CreateNewRevision pl type controls false)
          | Static => emit (CreateNewRevision pl type controls true)
          end ;;
          ret (Some pl)
      else ret None
  end.

Definition isNull {A} (o : option A) : bool :=
  match o with None => true | Some _ => false end.

Definition handleAutoPlaylistCommand (url : QUrl) : M bool :=
  pl <- loadDynamicPlaylist url false ;;
  ret (negb (isNull pl)).

Definition handleStationCommand (url : QUrl) : M bool :=
  pl <- loadDynamicPlaylist url true ;;
  ret (negb (isNull pl)).

Definition playSpotify (url : QUrl) : M bool :=
  if negb (hasQueryItem url "spotifyURI") && negb (hasQueryItem url "spotifyURL") then
    ret false
  else
    let spotifyUrl := if hasQueryItem url "spotifyURI"
                      then queryItemValue url "spotifyURI"
                      else queryItemValue url "spotifyURL" in
    emit (SpotifyParserNew spotifyUrl SlotSpotifyToPlay) ;;
    ret true.

Definition spotifyToPlay (q : nat) : M unit :=
  emit (PipelineResolve q) ;;
  set_waitingToPlay (Some q) ;;
  emit (ConnectResolvingFinished q).

Definition handlePlayCommand (url : QUrl) : M bool :=
  match commandParts url with
  | [] => log "No specific play command:" ;; ret false
  | p0 :: _ =>
      if p0 =? "track" then
        sp <- playSpotify url ;;
        if (sp : bool) then ret true
        else
          let f := scanTrackFields (queryItems url) in
          q <- Query_get (f_artist f) (f_title f) (f_album f) ;;
          setHintIfAny q (f_urlStr f) ;;
          emit (PipelineResolve q) ;;
          set_waitingToPlay (Some q) ;;
          emit (ConnectResolvingFinished q) ;;
          ret true
      else ret false
  end.

Definition doBookmark (pl q : nat) : M unit :=
  e <- ask ;;
  let duration := match firstResultDuration e q with
                  | Some d => d
                  | None => 0
                  end in
  emit (PlaylistAddEntry pl q duration) ;;
  emit (ConnectRevisionLoaded pl) ;;
  set_toShow (Some pl) ;;
  set_waitingToBookmark None.

Definition handleBookmarkCommand (url : QUrl) : M bool :=
  match commandParts url with
  | [] => log "No specific bookmark command:" ;; ret false
  | p0 :: _ =>
      if p0 =? "track" then
        let f := scanTrackFields (queryItems url) in
        q <- Query_get (f_artist f) (f_title f) (f_album f) ;;
        setHintIfAny q (f_urlStr f) ;;
        emit (PipelineResolve q) ;;
        e <- ask ;;
        match bookmarksPlaylist e with
        | None =>
            (* create it and do the deed then *)
            set_waitingToBookmark (Some q) ;;
            emit CreateBookmarksPlaylist ;;
            emit ConnectBookmarkPlaylistCreated
        | Some bookmarkpl => doBookmark bookmarkpl q
        end ;;
        ret true
      else ret false
  end.

(** Slot of [bookmarkPlaylistCreated]; [None] when the [Q_ASSERT] on
    [m_waitingToBookmark] fails. *)
Definition bookmarkPlaylistCreated (pl : nat) : M (option unit) :=
  s <- get ;;
  match m_waitingToBookmark s with
  | None => ret None
  | Some q => doBookmark pl q ;; ret (Some tt)
  end.

Definition showPlaylist : M unit :=
  s <- get ;;
  match m_toShow s with
  | None => ret tt
  | Some pl => emit (ViewShow pl) ;; set_toShow None
  end.

(** [m_waitingToPlay.data() != sender()]. *)
Definition is_sender (w : option nat) (sender : nat) : bool :=
  match w with
  | Some q => Nat.eqb q sender
  | None => false
  end.

(** Slot of every query's [resolvingFinished]; [sender] is the query whose
    signal is being delivered. *)
Definition waitingForResolved (sender : nat) : M unit :=
  s <- get ;;
  if negb (is_sender (m_waitingToPlay s) sender) then
    set_waitingToPlay None
  else
    e <- ask ;;
    match m_waitingToPlay s with
    | Some q =>
        if playable e q then
          (* play it! *)
          emit AudioEnginePlay ;;
          set_waitingToPlay None
        else ret tt
    | None => ret tt
    end.

(** The router. *)
Definition parseTomahawkLink (url : string) : M bool :=
  if QStr.contains url "tomahawk://" then
    let cmd := QStr.replace "%2B" "%20" (QStr.mid 11 url) in
    log "Parsing tomahawk link command" ;;
    let cmdType := QStr.first (QStr.split "/" cmd) in
    let u := fromEncoded cmd in
    (* for backwards compatibility; a [load] without xspf and jspf falls
       through to the chain below, where no branch matches it *)
    if (cmdType =? "load") && hasQueryItem u "xspf" then
      log "Loading spiff:" ;;
      emit (XSPFLoaderLoad (fromUserInput (queryItemValue u "xspf")) None) ;;
      ret true
    else if (cmdType =? "load") && hasQueryItem u "jspf" then
      log "Loading jspiff:" ;;
      emit (JSPFLoaderLoad (fromUserInput (queryItemValue u "jspf"))) ;;
      ret true
    else if cmdType =? "playlist" then handlePlaylistCommand u
    else if cmdType =? "collection" then handleCollectionCommand u
    else if cmdType =? "queue" then handleQueueCommand u
    else if cmdType =? "station" then handleStationCommand u
    else if cmdType =? "autoplaylist" then handleAutoPlaylistCommand u
    else if cmdType =? "search" then handleSearchCommand u
    else if cmdType =? "play" then handlePlayCommand u
    else if cmdType =? "bookmark" then handlePlayCommand u
    else if cmdType =? "open" then handleOpenCommand u
    else
      log "Tomahawk link not supported, command not known!" ;;
      ret false
  else
    log "Not a tomahawk:// link!" ;;
    ret false.

(** *** Text payloads *)

Definition handleTrackUrls (urls : string) : M unit :=
  if QStr.contains urls "open.spotify.com/track" || QStr.contains urls "spotify:track" then
    let tracks := QStr.split (ascii_of_nat 10) urls in
    log "Got a list of spotify urls!" ;;
    emit (SpotifyParserTracks tracks)
  else if QStr.contains urls "rdio.com" then
    let tracks := QStr.split (ascii_of_nat 10) urls in
    log "Got a list of rdio urls!" ;;
    emit (RdioParserParse tracks)
  else if QStr.contains urls "bit.ly" || QStr.contains urls "j.mp"
          || QStr.contains urls "t.co" || QStr.contains urls "rd.io" then
    let tracks := QStr.split (ascii_of_nat 10) urls in
    log "Got a list of shortened urls!" ;;
    (* its urls( QStringList ) signal is connected to expandedUrls *)
    emit (ShortenedLinkParserNew tracks)
  else ret tt.

(** Slot of [ShortenedLinkParser::urls]. *)
Definition expandedUrls (urls : list string) : M unit :=
  handleTrackUrls (QStr.join QStr.newline urls).

(** *** Outbound links *)

Definition hostname : string := "http://toma.hk".

(** A [QUrl] under construction: the text it was created from and the
    items [addQueryItem] appended. *)
Record OutLink := mkOut {
  base : string;
  items : list (string * string)
}.

Definition addQueryItem (l : OutLink) (k v : string) : OutLink :=
  mkOut (base l) (items l ++ [(k, v)])%list.

Definition encodeItem (kv : string * string) : string :=
  toPercentEncoding (fst kv) ++ "=" ++ toPercentEncoding (snd kv).

(** [QUrl::toEncoded]. *)
Definition toEncoded (l : OutLink) : string :=
  match items l with
  | [] => base l
  | _ :: _ => base l ++ "?" ++ QStr.join "&" (map encodeItem (items l))
  end.

Definition openLink (title artist album : string) : OutLink :=
  let link := mkOut (hostname ++ "/open/track/") [] in
  let link := if negb (QStr.isEmpty title) then addQueryItem link "title" title else link in
  let link := if negb (QStr.isEmpty artist) then addQueryItem link "artist" artist else link in
  let link := if negb (QStr.isEmpty album) then addQueryItem link "album" album else link in
  link.

(** What [openLinkFromQuery] reads from a query. *)
Record ResultInfo := mkResult {
  r_track : string;
  r_artist : option string;
  r_album : option string
}.

Record QueryInfo := mkQuery {
  firstResult : option ResultInfo;
  q_track : string;
  q_artist : string;
  q_album : string
}.

Definition orNull (o : option string) : string :=
  match o with Some s => s | None => EmptyString end.

Definition openLinkFromQuery (query : QueryInfo) : OutLink :=
  match firstResult query with
  | Some r => openLink (r_track r) (orNull (r_artist r)) (orNull (r_album r))
  | None => openLink (q_track query) (q_artist query) (q_album query)
  end.

(** The bytes put on the clipboard: [toEncoded] with ['] as [%27]. *)
Definition clipboardData (l : OutLink) : string :=
  QStr.replace "'" "%27" (toEncoded l).

Definition copyToClipboard (query : QueryInfo) : M unit :=
  emit (ClipboardSetText (clipboardData (openLinkFromQuery query))).

(** What [copyPlaylistToClipboard] reads from a dynamic playlist. *)
Record DynPlaylistInfo := mkDyn {
  pl_mode : GeneratorMode;
  pl_generatorType : string;
  pl_title : string;
  pl_controls : list dyncontrol
}.

(** "if it is a max, set that too": the test on [p]. *)
Definition isMaxParam (p : Z) : bool :=
  (p =? param_int MaxTempo)%Z || (p =? param_int MaxDuration)%Z
  || (p =? param_int MaxLoudness)%Z || (p =? param_int MaxDanceability)%Z
  || (p =? param_int MaxEnergy)%Z || (p =? param_int ArtistMaxFamiliarity)%Z
  || (p =? param_int ArtistMaxHotttnesss)%Z || (p =? param_int SongMaxHotttnesss)%Z
  || (p =? param_int ArtistMaxLatitude)%Z || (p =? param_int ArtistMaxLongitude)%Z.

(** The query item the loop of [copyPlaylistToClipboard] adds for a
    control. *)
Definition controlItem (c : dyncontrol) : string * string :=
  if selectedType c =? "Artist" then
    if (match_ c =? artist_int ArtistType)%Z then ("artist_limitto", input c)
    else ("artist", input c)
  else if selectedType c =? "Artist Description" then ("description", input c)
  else
    let name := QStr.replace " " "_" (QStr.toLower (selectedType c)) in
    let name := if isMaxParam (match_ c) then name ++ "_max" else name in
    (name, input c).

(** Returns the link whose [toString()] the source returns; [None] stands
    for the null [QString]. *)
Definition copyPlaylistToClipboard (playlist : DynPlaylistInfo) : M (option OutLink) :=
  let link := mkOut (hostname ++ "/"
                     ++ (match pl_mode playlist with
                         | OnDemand => "station"
                         | Static => "autoplaylist"
                         end) ++ "/create/") [] in
  if negb (pl_generatorType playlist =? "echonest") then
    log "Only echonest generators are supported" ;;
    ret None
  else
    let link := addQueryItem link "type" "echonest" in
    let link := addQueryItem link "title" (pl_title playlist) in
    let link := fold_left (fun l c => addQueryItem l (fst (controlItem c)) (snd (controlItem c)))
                          (pl_controls playlist) link in
    emit (ClipboardSetText (clipboardData link)) ;;
    ret (Some link).

End Manager.

(** The command text and the command type the router computes. *)
Definition commandText (url : string) : string :=
  QStr.replace "%2B" "%20" (QStr.mid 11 url).

Definition commandType (url : string) : string :=
  QStr.first (QStr.split "/" (commandText url)).

(** ** A concrete instance of the libraries

    Enough of Qt's URL handling to run the router on link texts: the path
    is the text before the first [?], the items are the [&]-separated
    pieces after it, split at their first [=], percent-decoded. *)

Module SimpleUrl.

Definition hexval (c : ascii) : option nat :=
  let n := nat_of_ascii c in
  if ((48 <=? n) && (n <=? 57))%nat%bool then Some (n - 48)
  else if ((65 <=? n) && (n <=? 70))%nat%bool then Some (n - 55)
  else if ((97 <=? n) && (n <=? 102))%nat%bool then Some (n - 87)
  else None.

Fixpoint pct_decode (s : string) : string :=
  match s with
  | EmptyString => EmptyString
  | String c r =>
      if Ascii.eqb c "%" then
        match r with
        | String a (String b r2) =>
            match hexval a, hexval b with
            | Some x, Some y => String (ascii_of_nat (16 * x + y)) (pct_decode r2)
            | _, _ => String c (pct_decode r)
            end
        | _ => String c (pct_decode r)
        end
      else String c (pct_decode r)
  end.

(** The text before the first [sep], and the text after it if any. *)
Fixpoint cut (sep : ascii) (s : string) : string * option string :=
  match s with
  | EmptyString => (EmptyString, None)
  | String c r =>
      if Ascii.eqb c sep then (EmptyString, Some r)
      else let '(a, b) := cut sep r in (String c a, b)
  end.

Definition parse_item (piece : string) : string * string :=
  let '(k, v) := cut "=" piece in
  (pct_decode k, match v with Some v => pct_decode v | None => EmptyString end).

Definition parse (cmd : string) : QUrl :=
  let '(p, q) := cut "?" cmd in
  mkQUrl (pct_decode p)
         (match q with
          | None => []
          | Some EmptyString => []
          | Some q => map parse_item (QStr.split "&" q)
          end).

Definition hexdigit (n : nat) : ascii :=
  if (n <? 10)%nat then ascii_of_nat (48 + n) else ascii_of_nat (55 + n).

Definition unreserved (c : ascii) : bool :=
  let n := nat_of_ascii c in
  (((48 <=? n) && (n <=? 57)) || ((65 <=? n) && (n <=? 90))
   || ((97 <=? n) && (n <=? 122)))%nat%bool
  || QStr.contains "-._~!$'()*+,;:@/?" (String c EmptyString).

Fixpoint pct_encode (s : string) : string :=
  match s with
  | EmptyString => EmptyString
  | String c r =>
      if unreserved c then String c (pct_encode r)
      else
        let n := nat_of_ascii c in
        String "%" (String (hexdigit (n / 16)) (String (hexdigit (n mod 16)) (pct_encode r)))
  end.

(** The file name after the last [/], up to its first [.]. *)
Definition baseName (s : string) : string :=
  fst (cut "." (last (QStr.split "/" s) EmptyString)).

End SimpleUrl.

(** A numbering of the enumerators in the order of libechonest's
    [Playlist.h]: each Max enumerator sits next to its Min one, before it
    for tempo, duration, loudness, familiarity and the hotttnesss pairs,
    after it for danceability, energy, longitude and latitude.  That header
    is not among the sources; the properties below use only these relative
    positions, stated as [echonest_order]. *)
Definition echonest_param_int (p : PlaylistParam) : Z :=
  match p with
  | Variety => 3
  | MaxTempo => 11 | MinTempo => 12
  | MaxDuration => 13 | MinDuration => 14
  | MaxLoudness => 15 | MinLoudness => 16
  | MinDanceability => 17 | MaxDanceability => 18
  | MinEnergy => 19 | MaxEnergy => 20
  | ArtistMaxFamiliarity => 21 | ArtistMinFamiliarity => 22
  | ArtistMaxHotttnesss => 23 | ArtistMinHotttnesss => 24
  | SongMaxHotttnesss => 25 | SongMinHotttnesss => 26
  | ArtistMinLongitude => 27 | ArtistMaxLongitude => 28
  | ArtistMinLatitude => 29 | ArtistMaxLatitude => 30
  | Mode => 31 | Key => 32 | Mood => 39 | Style => 40
  end%Z.

Definition echonest_artist_int (a : ArtistTypeEnum) : Z :=
  match a with
  | ArtistType => 0
  | ArtistRadioType => 1
  | ArtistDescriptionType => 2
  | SongRadioType => 5
  end%Z.

#[global] Instance QtEchonest : Libs := {
  fromEncoded := SimpleUrl.parse;
  toPercentEncoding := SimpleUrl.pct_encode;
  fromUserInput := fun s => s;
  urlBaseName := SimpleUrl.baseName;
  param_int := echonest_param_int;
  artist_int := echonest_artist_int
}.

(** ** Continuous attributes and bounds *)

Inductive Bound := Exact | Lower | Upper.

(** The bound an enumerator stands for, by its name. *)
Definition bound_of_param (p : PlaylistParam) : Bound :=
  match p with
  | MaxTempo | MaxDuration | MaxLoudness | MaxDanceability | MaxEnergy
  | ArtistMaxFamiliarity | ArtistMaxHotttnesss | SongMaxHotttnesss
  | ArtistMaxLongitude | ArtistMaxLatitude => Upper
  | MinTempo | MinDuration | MinLoudness | MinDanceability | MinEnergy
  | ArtistMinFamiliarity | ArtistMinHotttnesss | SongMinHotttnesss
  | ArtistMinLongitude | ArtistMinLatitude => Lower
  | Variety | Mode | Key | Mood | Style => Exact
  end.

Definition all_params : list PlaylistParam :=
  [Variety; MaxTempo; MinTempo; MaxDuration; MinDuration; MaxLoudness; MinLoudness;
   MinDanceability; MaxDanceability; MinEnergy; MaxEnergy;
   ArtistMaxFamiliarity; ArtistMinFamiliarity; ArtistMaxHotttnesss; ArtistMinHotttnesss;
   SongMaxHotttnesss; SongMinHotttnesss; ArtistMinLongitude; ArtistMaxLongitude;
   ArtistMinLatitude; ArtistMaxLatitude; Mode; Key; Mood; Style].

(** [static_cast< PlaylistParam >( match.toInt() )]. *)
Definition param_of_int {L : Libs} (z : Z) : option PlaylistParam :=
  find (fun p => (param_int p =? z)%Z) all_params.

(** The bound of a control of a continuous attribute, read off its match. *)
Definition bound_of_control {L : Libs} (c : dyncontrol) : option Bound :=
  option_map bound_of_param (param_of_int (match_ c)).

(** The ten attributes with a [_max] form: the prefix the builder tests, the
    control type it creates, and the attribute's two enumerators. *)
Inductive Continuous :=
| Tempo | Duration | Loudness | Danceability | Energy
| ArtistFamiliarity | ArtistHotttnesss | SongHotttnesss | Longitude | Latitude.

Definition paramName (a : Continuous) : string :=
  match a with
  | Tempo => "tempo" | Duration => "duration" | Loudness => "loudness"
  | Danceability => "danceability" | Energy => "energy"
  | ArtistFamiliarity => "artist_familiarity"
  | ArtistHotttnesss => "artist_hotttnesss"
  | SongHotttnesss => "song_hotttnesss"
  | Longitude => "longitude" | Latitude => "latitude"
  end.

Definition controlType (a : Continuous) : string :=
  match a with
  | Tempo => "Tempo" | Duration => "Duration" | Loudness => "Loudness"
  | Danceability => "Danceability" | Energy => "Energy"
  | ArtistFamiliarity => "Artist Familiarity"
  | ArtistHotttnesss => "Artist Hotttnesss"
  | SongHotttnesss => "Song Hotttnesss"
  | Longitude => "Longitude" | Latitude => "Latitude"
  end.

Definition minParam (a : Continuous) : PlaylistParam :=
  match a with
  | Tempo => MinTempo | Duration => MinDuration | Loudness => MinLoudness
  | Danceability => MinDanceability | Energy => MinEnergy
  | ArtistFamiliarity => ArtistMinFamiliarity
  | ArtistHotttnesss => ArtistMinHotttnesss
  | SongHotttnesss => SongMinHotttnesss
  | Longitude => ArtistMinLongitude | Latitude => ArtistMinLatitude
  end.

Definition maxParam (a : Continuous) : PlaylistParam :=
  match a with
  | Tempo => MaxTempo | Duration => MaxDuration | Loudness => MaxLoudness
  | Danceability => MaxDanceability | Energy => MaxEnergy
  | ArtistFamiliarity => ArtistMaxFamiliarity
  | ArtistHotttnesss => ArtistMaxHotttnesss
  | SongHotttnesss => SongMaxHotttnesss
  | Longitude => ArtistMaxLongitude | Latitude => ArtistMaxLatitude
  end.

(** The step the builder adds to the Min enumerator for a [_max] name. *)
Definition maxStep (a : Continuous) : Z :=
  match a with
  | Danceability | Energy | Longitude | Latitude => 1
  | _ => -1
  end%Z.

(** The enumeration declares each Max enumerator next to its Min one, on
    the side the builder steps to. *)
Definition echonest_order (L : Libs) : Prop :=
  forall a, param_int (maxParam a) = (param_int (minParam a) + maxStep a)%Z.

(** ** Runs of the manager *)

(** The entry points and slots through which the manager is driven. *)
Inductive op :=
| ParseTomahawkLink (url : string)
| HandleOpenTrack (q : nat)
| SpotifyToPlay (q : nat)
| WaitingForResolved (sender : nat)
| BookmarkPlaylistCreated (pl : nat)
| ShowPlaylist
| HandleTrackUrls (urls : string)
| ExpandedUrls (urls : list string).

Definition perform {L : Libs} (o : op) : M unit :=
  match o with
  | ParseTomahawkLink url => parseTomahawkLink url ;; ret tt
  | HandleOpenTrack q => handleOpenTrack q
  | SpotifyToPlay q => spotifyToPlay q
  | WaitingForResolved sender => waitingForResolved sender
  | BookmarkPlaylistCreated pl => bookmarkPlaylistCreated pl ;; ret tt
  | ShowPlaylist => showPlaylist
  | HandleTrackUrls urls => handleTrackUrls urls
  | ExpandedUrls urls => expandedUrls urls
  end.

(** The members after construction. *)
Definition init : GAM := mkGAM None None None 0.

(** One call, made while the collaborators are as [fst step] says. *)
Definition runStep {L : Libs} (acc : GAM * list event) (step : Env * op)
  : GAM * list event :=
  let r := perform (snd step) (fst step) (fst acc) in
  (after r, (snd acc ++ calls r)%list).

(** The members and the calls made after a sequence of entry-point calls. *)
Definition run {L : Libs} (steps : list (Env * op)) : GAM * list event :=
  fold_left runStep steps (init, []).

(** A query is registered for its [resolvingFinished] by the [connect] to
    [waitingForResolved]; the most recent registration in a trace. *)
Definition regStep (acc : option nat) (ev : event) : option nat :=
  match ev with
  | ConnectResolvingFinished q => Some q
  | _ => acc
  end.


Definition is_play (ev : event) : bool :=
  match ev with AudioEnginePlay => true | _ => false end.


(** Nothing is playing, no bookmarks playlist exists, nothing resolves. *)
Definition idleEnv : Env := mkEnv false None (fun _ => false) (fun _ => None).

(** As [idleEnv], but every query has become playable. *)
Definition playableEnv : Env := mkEnv false None (fun _ => true) (fun _ => None).

(** ** Chains of link expansions *)

(** The [ShortenedLinkParser]s a list of calls starts, with their urls. *)
Definition expansionRequests (l : list event) : list (list string) :=
  flat_map (fun ev => match ev with
                      | ShortenedLinkParserNew t => [t]
                      | _ => []
                      end) l.

(** The number of expansion round trips that follow the calls [l], when
    the network answers the request for [t] with [net t] and the answer is
    delivered to [expandedUrls]; at most [fuel] of them are followed. *)
Fixpoint roundTrips (fuel : nat) (net : list string -> list string)
         (l : list event) : nat :=
  match fuel with
  | O => O
  | S n =>
      match expansionRequests l with
      | [] => O
      | t :: _ => S (roundTrips n net (calls (expandedUrls (net t) idleEnv init)))
      end
  end.

(** ** Occurrences of a key among the query items *)

(** The value of the last item with key [key], or [d] when there is none. *)
Definition lastOr (key : string) (items : list (string * string)) (d : string) : string :=
  match find (fun kv => fst kv =? key) (rev items) with
  | Some kv => snd kv
  | None => d
  end.

Definition lastValue (key : string) (items : list (string * string)) : string :=
  lastOr key items EmptyString.

(** No item of [items] has key [key]. *)
Definition absent (key : string) (items : list (string * string)) : bool :=
  negb (existsb (fun kv => fst kv =? key) items).

(** ** Kinds of calls *)

(** Calls that touch the bookmarks playlist. *)
Definition is_bookmark_call (ev : event) : bool :=
  match ev with
  | CreateBookmarksPlaylist | ConnectBookmarkPlaylistCreated | PlaylistAddEntry _ _ _ => true
  | _ => false
  end.

Definition no_bookmark_call (l : list event) : bool :=
  forallb (fun ev => negb (is_bookmark_call ev)) l.

Definition is_QueryGet (ev : event) : bool :=
  match ev with QueryGet _ _ _ _ => true | _ => false end.

(** A collaborator state in which the bookmarks playlist [pl] exists. *)
Definition bookmarksEnv (pl : nat) : Env :=
  mkEnv false (Some pl) (fun _ => false) (fun _ => None).

(** Texts on the fixed origin of the outbound links. *)
Definition on_origin (text : string) : Prop :=
  exists rest, text = "http://toma.hk/" ++ rest.

(** ** The play slot and the registrations *)

(** The play slot is empty or holds the query registered last. *)
Definition slot_ok (s : GAM) (reg : option nat) : Prop :=
  m_waitingToPlay s = None \/ m_waitingToPlay s = reg.

(** A member function that keeps the play slot in step with the
    registrations it makes. *)
Definition tracks {A} (c : M A) : Prop :=
  forall e s reg,
    slot_ok s reg -> slot_ok (after (c e s)) (fold_left regStep (calls (c e s)) reg).

(** A member function that neither assigns the play slot nor registers. *)
Definition quiet {A} (c : M A) : Prop :=
  forall e s,
    m_waitingToPlay (after (c e s)) = m_waitingToPlay s
    /\ forall reg, fold_left regStep (calls (c e s)) reg = reg.


(** Two play links, which register the queries 0 and 1 in turn. *)
Definition twoPlayLinks : list (Env * op) :=
  [(idleEnv, ParseTomahawkLink "tomahawk://play/track?artist=Muse&title=Uprising");
   (idleEnv, ParseTomahawkLink "tomahawk://play/track?artist=Muse&title=Starlight")].

(** The condition under which [handleTrackUrls] takes its third branch: no
    spotify track pattern, no [rdio.com], and one of the four shortener
    domains. *)
Definition takenAsShortened (urls : string) : bool :=
  negb (QStr.contains urls "open.spotify.com/track" || QStr.contains urls "spotify:track")
  && negb (QStr.contains urls "rdio.com")
  && (QStr.contains urls "bit.ly" || QStr.contains urls "j.mp"
      || QStr.contains urls "t.co" || QStr.contains urls "rd.io").

(** A network on which every shortened link leads to another one. *)
Definition loopingNet (_ : list string) : list string := ["http://bit.ly/loop"].

(** ** Drag-and-drop payloads *)

(** A [QMimeData] as the manager reads it: the formats it offers and the
    bytes stored for [text/plain] (read only after [hasFormat]).  The bytes
    are taken to be ASCII text. *)
Record QMimeData := mkMime {
  formats : list string;
  textPlain : string
}.

(** [QMimeData::hasFormat]. *)
Definition hasFormat (data : QMimeData) (f : string) : bool :=
  existsb (String.eqb f) (formats data).

(** [QString::fromUtf8( bytes.constData() )]: the text up to the first NUL
    byte. *)
Fixpoint fromUtf8 (bytes : string) : string :=
  match bytes with
  | EmptyString => EmptyString
  | String c r => if Ascii.eqb c zero then EmptyString else String c (fromUtf8 r)
  end.

Definition acceptsMimeData (data : QMimeData) (tracksOnly : bool) : bool :=
  if hasFormat data "application/tomahawk.query.list"
     || hasFormat data "application/tomahawk.plentry.list"
     || hasFormat data "application/tomahawk.result.list"
     || hasFormat data "application/tomahawk.metadata.album"
     || hasFormat data "application/tomahawk.metadata.artist"
  then true
  (* crude check for spotify tracks *)
  else if hasFormat data "text/plain" && QStr.contains (textPlain data) "spotify"
          && (if tracksOnly then QStr.contains (textPlain data) "track" else true)
  then true
  (* crude check for rdio tracks *)
  else if hasFormat data "text/plain" && QStr.contains (textPlain data) "rdio.com"
          && (if tracksOnly then QStr.contains (textPlain data) "track" else true)
  then true
  (* the whitelisted shorteners *)
  else if (hasFormat data "text/plain" && QStr.contains (textPlain data) "bit.ly")
          || (hasFormat data "text/plain" && QStr.contains (textPlain data) "j.mp")
          || (hasFormat data "text/plain" && QStr.contains (textPlain data) "t.co")
          || (hasFormat data "text/plain" && QStr.contains (textPlain data) "rd.io")
  then true
  else false.

(** The four decoders of structured payloads ([tracksFromQueryList] and its
    siblings); what they return is read through pointers stored in the
    payload and is not modelled. *)
Inductive MimeDecoder :=
| FromQueryList | FromResultList | FromAlbumMetaData | FromArtistMetaData.

(** What [tracksFromMimeData] does: a call on a collaborator, or the
    emission of the [tracks] signal with the result of a decoder. *)
Inductive action :=
| Call (ev : event)
| EmitTracks (d : MimeDecoder).

Definition tracksFromMimeData (data : QMimeData) (e : Env) (s : GAM)
  : GAM * list action :=
  if hasFormat data "application/tomahawk.query.list" then
    (s, [EmitTracks FromQueryList])
  else if hasFormat data "application/tomahawk.result.list" then
    (s, [EmitTracks FromResultList])
  else if hasFormat data "application/tomahawk.metadata.album" then
    (s, [EmitTracks FromAlbumMetaData])
  else if hasFormat data "application/tomahawk.metadata.artist" then
    (s, [EmitTracks FromArtistMetaData])
  else if hasFormat data "text/plain" then
    let plainData := fromUtf8 (textPlain data) in
    let r := handleTrackUrls plainData e s in
    (after r, Call (Log "Got text/plain mime data:") :: map Call (calls r))
  else (s, []).

(** An action other than a log line. *)
Definition is_work (a : action) : bool :=
  match a with
  | Call (Log _) => false
  | _ => true
  end.

(** ** Names and codes of the station parameters *)

(** The parameter names the encoder of [copyPlaylistToClipboard] can
    write for a control the builder made. *)
Definition canonical_keys : list string :=
  ["artist"; "artist_limitto"; "description"; "variety";
   "tempo"; "tempo_max"; "duration"; "duration_max"; "loudness"; "loudness_max";
   "danceability"; "danceability_max"; "energy"; "energy_max";
   "artist_familiarity"; "artist_familiarity_max";
   "artist_hotttnesss"; "artist_hotttnesss_max";
   "song_hotttnesss"; "song_hotttnesss_max";
   "longitude"; "longitude_max"; "latitude"; "latitude_max";
   "key"; "mode"; "mood"; "style"; "song"].

(** What the round trip of a station needs of the enumerations: the order
    of the Min/Max pairs, distinct values for distinct parameters, distinct
    values for the two artist types, and a song type whose value is not
    that of a Max parameter (the encoder casts every match to a
    parameter). *)
Definition codes_distinct (L : Libs) : Prop :=
  echonest_order L
  /\ (forall p q : PlaylistParam, param_int p = param_int q -> p = q)
  /\ artist_int ArtistType <> artist_int ArtistRadioType
  /\ isMaxParam (artist_int SongRadioType) = false.

(** A control the builder can produce. *)
Definition buildable {L : Libs} (c : dyncontrol) : Prop :=
  exists param, controlOf param = Some c.

(** ** What a member function leaves alone *)

(** Calls that start playback, touch the bookmarks playlist or write the
    clipboard. *)
Definition is_clipboard (ev : event) : bool :=
  match ev with ClipboardSetText _ => true | _ => false end.

Definition is_reserved (ev : event) : bool :=
  is_play ev || is_bookmark_call ev || is_clipboard ev.

(** A member function that keeps the bookmark slot and the playlist to
    show, and makes no reserved call. *)
Definition discreet {A} (c : M A) : Prop :=
  forall e s,
    m_waitingToBookmark (after (c e s)) = m_waitingToBookmark s
    /\ m_toShow (after (c e s)) = m_toShow s
    /\ forallb (fun ev => negb (is_reserved ev)) (calls (c e s)) = true.

(** A member function that, when it returns false, has changed no member
    and made no call but log lines. *)
Definition clean_reject (c : M bool) : Prop :=
  forall e s,
    result (c e s) = false ->
    after (c e s) = s /\ only_logs (calls (c e s)) = true.

(** The command names the router knows. *)
Definition known_commands : list string :=
  ["load"; "playlist"; "collection"; "queue"; "station"; "autoplaylist";
   "search"; "play"; "bookmark"; "open"].

(** The values of the [artist], [album] and [title] items a search link
    carries, in the order the handler collects them. *)
Definition searchFields (url : QUrl) : list string :=
  ((if hasQueryItem url "artist" then [queryItemValue url "artist"] else [])
   ++ (if hasQueryItem url "album" then [queryItemValue url "album"] else [])
   ++ (if hasQueryItem url "title" then [queryItemValue url "title"] else []))%list.

(** An item whose key is one of the two spotify keys. *)
Definition is_spotify_key (kv : string * string) : bool :=
  (fst kv =? "spotifyURL") || (fst kv =? "spotifyURI").

(** * Properties *)

(** ** The string operations on examples *)

Example contains_mid : QStr.contains "xtomahawk://a" "tomahawk://" = true.
Proof. reflexivity. Qed.

Example replace_2B : QStr.replace "%2B" "%20" "a%2Bb%2B%2" = "a%20b%20%2".
Proof. reflexivity. Qed.

Example split_path : QStr.split "/" "station/create/" = ["station"; "create"; EmptyString].
Proof. reflexivity. Qed.

Example ends_max : QStr.endsWith "tempo_max" "_max" = true.
Proof. reflexivity. Qed.

Example lower_name :
  QStr.replace " " "_" (QStr.toLower "Artist Familiarity") = "artist_familiarity".
Proof. reflexivity. Qed.

Example parse_create :
  SimpleUrl.parse "station/create/?type=echonest&title=My%20Mix"
  = mkQUrl "station/create/" [("type", "echonest"); ("title", "My Mix")].
Proof. reflexivity. Qed.

(** ** Sequencing *)

Lemma bind_result {A B} (c : M A) (k : A -> M B) e s :
  result (bind c k e s) = result (k (result (c e s)) e (after (c e s))).
Proof.
  unfold bind, result, after.
  destruct (c e s) as [[a s1] l1]; simpl.
  destruct (k a e s1) as [[b s2] l2]; reflexivity.
Qed.

Lemma bind_after {A B} (c : M A) (k : A -> M B) e s :
  after (bind c k e s) = after (k (result (c e s)) e (after (c e s))).
Proof.
  unfold bind, result, after.
  destruct (c e s) as [[a s1] l1]; simpl.
  destruct (k a e s1) as [[b s2] l2]; reflexivity.
Qed.

Lemma bind_calls {A B} (c : M A) (k : A -> M B) e s :
  calls (bind c k e s)
  = (calls (c e s) ++ calls (k (result (c e s)) e (after (c e s))))%list.
Proof.
  unfold bind, result, after, calls.
  destruct (c e s) as [[a s1] l1]; simpl.
  destruct (k a e s1) as [[b s2] l2]; reflexivity.
Qed.

(** A computation that ends in [ret false] returns false. *)
Lemma then_false {A} (c : M A) e s : result (bind c (fun _ => ret false) e s) = false.
Proof. rewrite bind_result. reflexivity. Qed.

(** ** Handlers that never report success *)

Section AlwaysFalse.
Context {L : Libs}.

Lemma handlePlaylistCommand_false url e s :
  result (handlePlaylistCommand url e s) = false.
Proof.
  unfold handlePlaylistCommand.
  destruct (commandParts url) as [|p0 rest]; [reflexivity|].
  destruct (p0 =? "import").
  { destruct (hasQueryItem url "xspf"); reflexivity. }
  destruct (p0 =? "new").
  { destruct (hasQueryItem url "title"); reflexivity. }
  destruct (p0 =? "add"); [|reflexivity].
  destruct (negb (hasQueryItem url "playlistid") || negb (hasQueryItem url "title")
            || negb (hasQueryItem url "artist")); reflexivity.
Qed.

Lemma handleCollectionCommand_false url e s :
  result (handleCollectionCommand url e s) = false.
Proof.
  unfold handleCollectionCommand.
  destruct (commandParts url); reflexivity.
Qed.

Lemma handleQueueCommand_false url e s :
  result (handleQueueCommand url e s) = false.
Proof.
  unfold handleQueueCommand.
  destruct (commandParts url) as [|p0 rest]; [reflexivity|].
  destruct (p0 =? "add"); [apply then_false | reflexivity].
Qed.

(** The router on a text in which the scheme text does not occur. *)
Lemma parse_scheme_absent url e s :
  QStr.contains url "tomahawk://" = false ->
  parseTomahawkLink url e s = (false, s, [Log "Not a tomahawk:// link!"]).
Proof.
  intros H. unfold parseTomahawkLink. rewrite H. reflexivity.
Qed.

End AlwaysFalse.

(** ** Routing *)

Section Routing.
Context {L : Libs}.

(** Exposes the command type in the router's body. *)
Ltac expose_route url Hc :=
  unfold parseTomahawkLink; rewrite Hc; cbv zeta;
  change (QStr.first (QStr.split "/" (QStr.replace "%2B" "%20" (QStr.mid 11 url))))
    with (commandType url);
  change (QStr.replace "%2B" "%20" (QStr.mid 11 url)) with (commandText url).

Lemma route_playlist url :
  QStr.contains url "tomahawk://" = true -> commandType url = "playlist" ->
  parseTomahawkLink url
  = (log "Parsing tomahawk link command" ;;
     handlePlaylistCommand (fromEncoded (commandText url))).
Proof. intros Hc Ht. expose_route url Hc. rewrite Ht. reflexivity. Qed.

Lemma route_collection url :
  QStr.contains url "tomahawk://" = true -> commandType url = "collection" ->
  parseTomahawkLink url
  = (log "Parsing tomahawk link command" ;;
     handleCollectionCommand (fromEncoded (commandText url))).
Proof. intros Hc Ht. expose_route url Hc. rewrite Ht. reflexivity. Qed.

Lemma route_queue url :
  QStr.contains url "tomahawk://" = true -> commandType url = "queue" ->
  parseTomahawkLink url
  = (log "Parsing tomahawk link command" ;;
     handleQueueCommand (fromEncoded (commandText url))).
Proof. intros Hc Ht. expose_route url Hc. rewrite Ht. reflexivity. Qed.

Lemma route_station url :
  QStr.contains url "tomahawk://" = true -> commandType url = "station" ->
  parseTomahawkLink url
  = (log "Parsing tomahawk link command" ;;
     handleStationCommand (fromEncoded (commandText url))).
Proof. intros Hc Ht. expose_route url Hc. rewrite Ht. reflexivity. Qed.

Lemma route_autoplaylist url :
  QStr.contains url "tomahawk://" = true -> commandType url = "autoplaylist" ->
  parseTomahawkLink url
  = (log "Parsing tomahawk link command" ;;
     handleAutoPlaylistCommand (fromEncoded (commandText url))).
Proof. intros Hc Ht. expose_route url Hc. rewrite Ht. reflexivity. Qed.

Lemma route_play url :
  QStr.contains url "tomahawk://" = true -> commandType url = "play" ->
  parseTomahawkLink url
  = (log "Parsing tomahawk link command" ;;
     handlePlayCommand (fromEncoded (commandText url))).
Proof. intros Hc Ht. expose_route url Hc. rewrite Ht. reflexivity. Qed.

(** A [bookmark] link is handed to [handlePlayCommand]. *)
Lemma route_bookmark url :
  QStr.contains url "tomahawk://" = true -> commandType url = "bookmark" ->
  parseTomahawkLink url
  = (log "Parsing tomahawk link command" ;;
     handlePlayCommand (fromEncoded (commandText url))).
Proof. intros Hc Ht. expose_route url Hc. rewrite Ht. reflexivity. Qed.

Lemma route_open url :
  QStr.contains url "tomahawk://" = true -> commandType url = "open" ->
  parseTomahawkLink url
  = (log "Parsing tomahawk link command" ;;
     handleOpenCommand (fromEncoded (commandText url))).
Proof. intros Hc Ht. expose_route url Hc. rewrite Ht. reflexivity. Qed.

(** An unknown command type is logged and rejected. *)
Lemma route_unknown url e s :
  QStr.contains url "tomahawk://" = true ->
  existsb (String.eqb (commandType url))
          ["load"; "playlist"; "collection"; "queue"; "station"; "autoplaylist";
           "search"; "play"; "bookmark"; "open"] = false ->
  parseTomahawkLink url e s
  = (false, s, [Log "Parsing tomahawk link command";
                Log "Tomahawk link not supported, command not known!"]).
Proof.
  intros Hc Ht. expose_route url Hc.
  simpl in Ht. repeat (apply orb_false_elim in Ht; destruct Ht as [?H Ht]).
  repeat match goal with H : (_ =? _) = false |- _ => rewrite H; clear H end.
  reflexivity.
Qed.

End Routing.

(** ** C10: playlist, collection and queue commands report failure *)

(** C10.  For every link whose command type is [playlist], [collection] or
    [queue], [parseTomahawkLink] returns false; this is so even when the
    command is valid and carried out: a [playlist/new] with a title creates
    and shows the playlist, a [playlist/import] with an [xspf] starts the
    loader, and a [queue/add/track] naming a track appends a query to the
    queue. *)
Theorem playlist_collection_queue_report_false {L : Libs} (url : string) (e : Env) (s : GAM) :
  In (commandType url) ["playlist"; "collection"; "queue"] ->
  let u := fromEncoded (commandText url) in
  let r := parseTomahawkLink url e s in
  result r = false
  /\ (QStr.contains url "tomahawk://" = true -> commandType url = "playlist" ->
      hd_error (commandParts u) = Some "new" -> hasQueryItem u "title" = true ->
      calls r = [Log "Parsing tomahawk link command";
                 PlaylistCreate (next_id s) (queryItemValue u "title");
                 ViewShow (next_id s)])
  /\ (QStr.contains url "tomahawk://" = true -> commandType url = "playlist" ->
      hd_error (commandParts u) = Some "import" -> hasQueryItem u "xspf" = true ->
      calls r = [Log "Parsing tomahawk link command";
                 XSPFLoaderLoad (queryItemValue u "xspf")
                   (if hasQueryItem u "title" then Some (queryItemValue u "title") else None)])
  /\ (QStr.contains url "tomahawk://" = true -> commandType url = "queue" ->
      (exists rest, commandParts u = "add" :: "track" :: rest) ->
      fold_left spotifyStep (queryItems u) EmptyString = EmptyString ->
      (let f := scanTrackFields (queryItems u) in
       QStr.isEmpty (f_title f) && QStr.isEmpty (f_artist f) && QStr.isEmpty (f_album f) = false) ->
      In (QueueAppend (next_id s)) (calls r)).
Proof.
  intros Hin u r. subst r. repeat split.
  - destruct (QStr.contains url "tomahawk://") eqn:Hc.
    + destruct Hin as [H | [H | [H | []]]]; symmetry in H.
      * rewrite (route_playlist url Hc H), bind_result. apply handlePlaylistCommand_false.
      * rewrite (route_collection url Hc H), bind_result. apply handleCollectionCommand_false.
      * rewrite (route_queue url Hc H), bind_result. apply handleQueueCommand_false.
    + rewrite (parse_scheme_absent url e s Hc). reflexivity.
  - intros Hc Ht Hparts Htitle.
    rewrite (route_playlist url Hc Ht). unfold handlePlaylistCommand. fold u.
    destruct (commandParts u) as [|p0 rest]; [discriminate|].
    simpl in Hparts. injection Hparts as ->. simpl. rewrite Htitle. reflexivity.
  - intros Hc Ht Hparts Hx.
    rewrite (route_playlist url Hc Ht). unfold handlePlaylistCommand. fold u.
    destruct (commandParts u) as [|p0 rest]; [discriminate|].
    simpl in Hparts. injection Hparts as ->. simpl. rewrite Hx. reflexivity.
  - intros Hc Ht [rest Hparts] Hsp Hf.
    rewrite (route_queue url Hc Ht). unfold handleQueueCommand. fold u.
    rewrite Hparts. simpl. unfold doQueueAdd, queueSpotify. rewrite Hsp.
    cbv zeta in Hf.
    destruct (scanTrackFields (queryItems u)) as [t a al h]; simpl in Hf.
    assert (Hne : negb (QStr.isEmpty t) || negb (QStr.isEmpty a) || negb (QStr.isEmpty al) = true).
    { destruct (QStr.isEmpty t), (QStr.isEmpty a), (QStr.isEmpty al); simpl in *; congruence. }
    simpl. rewrite Hne.
    unfold handleOpenTrack, setHintIfAny.
    destruct (QStr.isEmpty h), (isPlaying e) eqn:Hp;
      cbv [bind ret emit ask fresh log Query_get set_waitingToPlay calls snd negb app];
      rewrite ?Hp; simpl; tauto.
Qed.

(** The theorem on [tomahawk://playlist/new?title=Mix]: the playlist is
    created and shown, and the link is still reported as rejected. *)
Lemma playlist_collection_queue_report_false_witness :
  In (commandType "tomahawk://playlist/new?title=Mix") ["playlist"; "collection"; "queue"]
  /\ result (parseTomahawkLink "tomahawk://playlist/new?title=Mix" idleEnv init) = false
  /\ calls (parseTomahawkLink "tomahawk://playlist/new?title=Mix" idleEnv init)
     = [Log "Parsing tomahawk link command"; PlaylistCreate 0 "Mix"; ViewShow 0].
Proof.
  assert (Hin : In (commandType "tomahawk://playlist/new?title=Mix")
                   ["playlist"; "collection"; "queue"]) by (left; reflexivity).
  split; [exact Hin|].
  destruct (playlist_collection_queue_report_false
              "tomahawk://playlist/new?title=Mix" idleEnv init Hin) as [Hr [Hnew _]].
  split; [exact Hr|].
  apply Hnew; reflexivity.
Defined.

(** ** C9: station and autoplaylist creation *)

Section Station.
Context {L : Libs}.

Lemma fold_controlStep items acc :
  fold_left controlStep items acc = (acc ++ flat_map contribution items)%list.
Proof.
  revert acc. induction items as [|kv items IH]; intros acc; simpl.
  - now rewrite app_nil_r.
  - rewrite IH. unfold controlStep, contribution.
    destruct (controlOf kv); simpl.
    + now rewrite <- app_assoc.
    + reflexivity.
Qed.

(** The loop appends, in order, one control per matched parameter and
    nothing for the others. *)
Lemma buildControls_flat_map items :
  buildControls items = flat_map contribution items.
Proof. unfold buildControls. now rewrite fold_controlStep. Qed.

Lemma controlOf_title v : controlOf ("title", v) = None.
Proof. reflexivity. Qed.

Lemma controlOf_type v : controlOf ("type", v) = None.
Proof. reflexivity. Qed.

(** Only [title] and [type] items: no control. *)
Lemma buildControls_identity_only items :
  forallb (fun kv => (fst kv =? "title") || (fst kv =? "type")) items = true ->
  buildControls items = [].
Proof.
  rewrite buildControls_flat_map.
  induction items as [|[k v] items IH]; simpl; [reflexivity|].
  intros H. apply andb_prop in H. destruct H as [Hk Hrest].
  rewrite (IH Hrest), app_nil_r. unfold contribution.
  apply orb_prop in Hk. destruct Hk as [Hk | Hk]; apply String.eqb_eq in Hk; subst k;
    reflexivity.
Qed.

End Station.

(** C9.  For a [station] or [autoplaylist] link whose command is [create]:
    without a [title] or without a [type] item the link is rejected, the
    members are unchanged and nothing but the two log lines is emitted (no
    playlist is created, no revision committed); with both, the link is
    accepted and exactly one playlist is created and exactly one revision
    committed for it, whose controls are the contributions of the query
    items in order, parameters that match no filter contributing nothing;
    with only [title] and [type] items the committed control list is
    empty. *)
Theorem station_create_commits_once {L : Libs} (station : bool) (url : string)
        (e : Env) (s : GAM) :
  QStr.contains url "tomahawk://" = true ->
  commandType url = (if station then "station" else "autoplaylist") ->
  hd_error (commandParts (fromEncoded (commandText url))) = Some "create" ->
  let u := fromEncoded (commandText url) in
  let r := parseTomahawkLink url e s in
  (hasQueryItem u "title" && hasQueryItem u "type" = false ->
   result r = false /\ after r = s
   /\ calls r = [Log "Parsing tomahawk link command";
                 Log "Station create command needs title and type..."])
  /\ (hasQueryItem u "title" && hasQueryItem u "type" = true ->
      result r = true
      /\ calls r = [Log "Parsing tomahawk link command";
                    DynamicPlaylistCreate (next_id s) (queryItemValue u "title")
                      (if station then OnDemand else Static) (queryItemValue u "type");
                    CreateNewRevision (next_id s) (queryItemValue u "type")
                      (buildControls (queryItems u)) (negb station)])
  /\ buildControls (queryItems u) = flat_map contribution (queryItems u)
  /\ (forall kv, controlOf kv = None -> contribution kv = [])
  /\ (forallb (fun kv => (fst kv =? "title") || (fst kv =? "type")) (queryItems u) = true ->
      buildControls (queryItems u) = []).
Proof.
  intros Hc Ht Hparts u r. subst r.
  assert (Hroute : parseTomahawkLink url
                   = (log "Parsing tomahawk link command" ;;
                      pl <- loadDynamicPlaylist u station ;; ret (negb (isNull pl)))).
  { destruct station.
    - rewrite (route_station url Hc Ht). reflexivity.
    - rewrite (route_autoplaylist url Hc Ht). reflexivity. }
  rewrite Hroute. unfold loadDynamicPlaylist.
  destruct (commandParts u) as [|p0 rest] eqn:Hp.
  { unfold u in Hp. rewrite Hp in Hparts. discriminate. }
  unfold u in Hp. rewrite Hp in Hparts. simpl in Hparts. injection Hparts as ->.
  simpl.
  repeat split.
  - apply andb_false_iff in H.
    assert (Hor : negb (hasQueryItem u "title") || negb (hasQueryItem u "type") = true).
    { destruct H as [H | H]; rewrite H; simpl; [reflexivity | apply orb_true_r]. }
    rewrite Hor. reflexivity.
  - apply andb_false_iff in H.
    assert (Hor : negb (hasQueryItem u "title") || negb (hasQueryItem u "type") = true).
    { destruct H as [H | H]; rewrite H; simpl; [reflexivity | apply orb_true_r]. }
    rewrite Hor. reflexivity.
  - apply andb_false_iff in H.
    assert (Hor : negb (hasQueryItem u "title") || negb (hasQueryItem u "type") = true).
    { destruct H as [H | H]; rewrite H; simpl; [reflexivity | apply orb_true_r]. }
    rewrite Hor. reflexivity.
  - apply andb_prop in H. destruct H as [H1 H2]. rewrite H1, H2. simpl.
    destruct station; reflexivity.
  - apply andb_prop in H. destruct H as [H1 H2]. rewrite H1, H2. simpl.
    destruct station; reflexivity.
  - apply buildControls_flat_map.
  - intros kv Hkv. unfold contribution. now rewrite Hkv.
  - apply buildControls_identity_only.
Qed.

(** The theorem on a station link with a title, a type and no filter. *)
Lemma station_create_commits_once_witness :
  result (parseTomahawkLink "tomahawk://station/create/?type=echonest&title=Mix" idleEnv init)
  = true
  /\ calls (parseTomahawkLink "tomahawk://station/create/?type=echonest&title=Mix" idleEnv init)
     = [Log "Parsing tomahawk link command";
        DynamicPlaylistCreate 0 "Mix" OnDemand "echonest";
        CreateNewRevision 0 "echonest" [] false].
Proof.
  assert (Hc : QStr.contains "tomahawk://station/create/?type=echonest&title=Mix"
                             "tomahawk://" = true) by reflexivity.
  assert (Ht : commandType "tomahawk://station/create/?type=echonest&title=Mix" = "station")
    by reflexivity.
  assert (Hp : hd_error (commandParts (fromEncoded
                 (commandText "tomahawk://station/create/?type=echonest&title=Mix")))
               = Some "create") by reflexivity.
  destruct (station_create_commits_once true
              "tomahawk://station/create/?type=echonest&title=Mix" idleEnv init
              Hc Ht Hp) as [_ [Hboth _]].
  apply Hboth. reflexivity.
Defined.

(** ** C6: the [_max] suffix *)

Section MaxSuffix.
Context {L : Libs}.

Lemma endsWith_max_name a : QStr.endsWith (paramName a ++ "_max") "_max" = true.
Proof. destruct a; reflexivity. Qed.

Lemma endsWith_bare_name a : QStr.endsWith (paramName a) "_max" = false.
Proof. destruct a; reflexivity. Qed.

(** A parameter whose name starts with an attribute's name takes that
    attribute's branch. *)
Lemma controlOf_continuous a rest v :
  controlOf (paramName a ++ rest, v)
  = Some (mkControl (controlType a) v
            (param_int (minParam a) + extra (paramName a ++ rest) (maxStep a))).
Proof.
  destruct a; unfold controlOf; cbn [fst snd paramName controlType minParam maxStep];
    reflexivity.
Qed.

Lemma controlOf_max_name a v :
  controlOf (paramName a ++ "_max", v)
  = Some (mkControl (controlType a) v (param_int (minParam a) + maxStep a)).
Proof. destruct a; reflexivity. Qed.

Lemma controlOf_bare_name a v :
  controlOf (paramName a, v)
  = Some (mkControl (controlType a) v (param_int (minParam a) + 0)).
Proof. destruct a; reflexivity. Qed.

(** The encoder's test accepts every Max enumerator. *)
Lemma isMaxParam_max a : isMaxParam (param_int (maxParam a)) = true.
Proof.
  destruct a; unfold isMaxParam; cbn [maxParam]; rewrite Z.eqb_refl;
    repeat rewrite ?orb_true_r, ?orb_true_l; reflexivity.
Qed.

(** The encoder names a Max control with the [_max] suffix. *)
Lemma controlItem_max a v :
  controlItem (mkControl (controlType a) v (param_int (maxParam a)))
  = (paramName a ++ "_max", v).
Proof.
  unfold controlItem. cbn [selectedType match_ input].
  rewrite isMaxParam_max. destruct a; reflexivity.
Qed.

(** If the builder reads back what the encoder writes for the Max
    controls, the enumeration is ordered as [echonest_order] says. *)
Lemma roundtrip_forces_order :
  (forall a v,
      controlOf (controlItem (mkControl (controlType a) v (param_int (maxParam a))))
      = Some (mkControl (controlType a) v (param_int (maxParam a)))) ->
  echonest_order L.
Proof.
  intros H a. specialize (H a EmptyString).
  rewrite controlItem_max, controlOf_max_name in H.
  injection H as H. now symmetry.
Qed.

End MaxSuffix.

Lemma echonest_order_holds : echonest_order QtEchonest.
Proof. intros a; destruct a; reflexivity. Qed.

(** C6, as the builder behaves.  With the enumeration ordered as
    [echonest_order] says, a parameter whose name starts with the name of a
    continuous attribute yields that attribute's control with the Max
    enumerator (the upper bound) when the name ends in [_max] and with the
    Min enumerator (the lower bound) otherwise, for all ten attributes,
    danceability, energy, longitude and latitude included: for those four
    the builder adds 1 instead of -1 to reach the Max enumerator.  The
    encoder of [copyPlaylistToClipboard] writes the [_max] name for the
    same Max enumerators. *)
Theorem max_suffix_selects_max_enumerator {L : Libs} (a : Continuous) (rest v : string) :
  echonest_order L ->
  let name := paramName a ++ rest in
  let p := if QStr.endsWith name "_max" then maxParam a else minParam a in
  controlOf (name, v) = Some (mkControl (controlType a) v (param_int p))
  /\ bound_of_param p = (if QStr.endsWith name "_max" then Upper else Lower)
  /\ controlOf (paramName a ++ "_max", v)
     = Some (mkControl (controlType a) v (param_int (maxParam a)))
  /\ bound_of_param (maxParam a) = Upper
  /\ controlOf (paramName a, v)
     = Some (mkControl (controlType a) v (param_int (minParam a)))
  /\ bound_of_param (minParam a) = Lower
  /\ controlItem (mkControl (controlType a) v (param_int (maxParam a)))
     = (paramName a ++ "_max", v).
Proof.
  intros Hord name p. subst name p. repeat split.
  - rewrite controlOf_continuous. unfold extra.
    destruct (QStr.endsWith (paramName a ++ rest) "_max").
    + now rewrite Hord.
    + now rewrite Z.add_0_r.
  - destruct (QStr.endsWith (paramName a ++ rest) "_max"); destruct a; reflexivity.
  - rewrite controlOf_max_name. now rewrite Hord.
  - destruct a; reflexivity.
  - rewrite controlOf_bare_name. now rewrite Z.add_0_r.
  - destruct a; reflexivity.
  - apply controlItem_max.
Qed.

(** The theorem on [danceability_max=0.2] with libechonest's numbering:
    the control carries [MaxDanceability]. *)
Lemma max_suffix_selects_max_enumerator_witness :
  echonest_order QtEchonest
  /\ controlOf ("danceability_max", "0.2")
     = Some (mkControl "Danceability" "0.2" (param_int MaxDanceability)).
Proof.
  split; [exact echonest_order_holds|].
  exact (proj1 (max_suffix_selects_max_enumerator Danceability "_max" "0.2"
                  echonest_order_holds)).
Defined.

(** C6 as stated fails: [buildControls] on [danceability_max=0.2] yields
    one control, and its bound is Upper, not Lower. *)
Lemma danceability_max_is_upper :
  buildControls [("danceability_max", "0.2")] = [mkControl "Danceability" "0.2" 18]
  /\ map bound_of_control (buildControls [("danceability_max", "0.2")]) = [Some Upper]
  /\ map bound_of_control (buildControls [("danceability_max", "0.2")]) <> [Some Lower].
Proof.
  split; [reflexivity|]. split; [reflexivity|]. discriminate.
Qed.

(** ** C5: which occurrence of a repeated key is used *)

Section Occurrences.
Context {L : Libs}.

Lemma find_absent key (items : list (string * string)) :
  absent key items = true -> find (fun kv => fst kv =? key) items = None.
Proof.
  unfold absent. induction items as [|kv items IH]; simpl; [reflexivity|].
  destruct (fst kv =? key); simpl; [discriminate | exact IH].
Qed.

(** [queryItemValue] returns the first occurrence. *)
Lemma queryItemValue_first p key pre v post :
  absent key pre = true ->
  queryItemValue (mkQUrl p (pre ++ (key, v) :: post)) key = v.
Proof.
  intros H. unfold queryItemValue. cbn [queryItems].
  induction pre as [|kv pre IH]; simpl.
  - now rewrite String.eqb_refl.
  - unfold absent in H. simpl in H. destruct (fst kv =? key); simpl in *.
    + discriminate.
    + apply IH. exact H.
Qed.

Lemma lastOr_snoc key items kv d :
  lastOr key (items ++ [kv]) d
  = if fst kv =? key then snd kv else lastOr key items d.
Proof.
  unfold lastOr. rewrite rev_app_distr. simpl.
  destruct (fst kv =? key); reflexivity.
Qed.

(** [lastOr] returns the last occurrence. *)
Lemma lastOr_last key pre v post d :
  absent key post = true ->
  lastOr key (pre ++ (key, v) :: post) d = v.
Proof.
  intros H. unfold lastOr. rewrite rev_app_distr. simpl.
  rewrite <- app_assoc. simpl.
  assert (Hr : find (fun kv => fst kv =? key) (rev post) = None).
  { apply find_absent. unfold absent in *.
    rewrite <- H. f_equal.
    clear. induction post as [|kv post IH]; simpl; [reflexivity|].
    rewrite existsb_app, IH. simpl. rewrite orb_false_r. apply orb_comm. }
  induction (rev post) as [|kv l IH]; simpl.
  - now rewrite String.eqb_refl.
  - simpl in Hr. destruct (fst kv =? key); [discriminate | now apply IH].
Qed.

Ltac keys_differ :=
  repeat match goal with
         | H : (_ =? _) = true |- _ => apply String.eqb_eq in H
         end;
  congruence.

(** The scanning loop leaves in each local the last value assigned. *)
Lemma scan_fold items acc :
  let f := fold_left scanStep items acc in
  f_title f = lastOr "title" items (f_title acc)
  /\ f_artist f = lastOr "artist" items (f_artist acc)
  /\ f_album f = lastOr "album" items (f_album acc)
  /\ f_urlStr f = lastOr "url" items (f_urlStr acc).
Proof.
  induction items as [|kv items IH] using rev_ind; [repeat split|].
  cbv zeta in *. rewrite fold_left_app. simpl.
  rewrite !lastOr_snoc. destruct IH as (Ht & Ha & Hal & Hu).
  unfold scanStep.
  destruct (fst kv =? "title") eqn:E1, (fst kv =? "artist") eqn:E2,
           (fst kv =? "album") eqn:E3, (fst kv =? "url") eqn:E4;
    cbn [f_title f_artist f_album f_urlStr]; try keys_differ; auto.
Qed.

Lemma scan_last items :
  scanTrackFields items
  = mkFields (lastValue "title" items) (lastValue "artist" items)
             (lastValue "album" items) (lastValue "url" items).
Proof.
  unfold scanTrackFields, lastValue.
  set (none := mkFields EmptyString EmptyString EmptyString EmptyString).
  destruct (scan_fold items none) as (Ht & Ha & Hal & Hu).
  destruct (fold_left scanStep items none); simpl in *.
  congruence.
Qed.

End Occurrences.

(** The first item with a key is the one [find] returns. *)
Lemma find_first key (pre post : list (string * string)) v :
  absent key pre = true ->
  find (fun kv => fst kv =? key) (pre ++ (key, v) :: post) = Some (key, v).
Proof.
  unfold absent. induction pre as [|kv pre IH]; simpl; intros H.
  - now rewrite String.eqb_refl.
  - destruct (fst kv =? key); simpl in H; [discriminate | now apply IH].
Qed.

(** C5, as the handlers behave.  When a key occurs more than once among the
    query items: a look-up with [queryItemValue] (search, playlist import
    and new, the title and type of a station, the spotify keys of a play
    command) yields the first occurrence.  The handlers that scan the items
    ([handlePlayCommand], which also serves bookmark links,
    [handleBookmarkCommand], and [doQueueAdd] when a title, artist or album
    is given) build their one query from the last occurrence of [title],
    [artist] and [album], and give it the last occurrence of [url] as
    result hint when that value is not empty.  [doQueueAdd] without title,
    artist and album takes the items as a list of urls and uses the first
    [url] item only.  The station builder turns every occurrence of a
    filter parameter into a control of its own. *)
Theorem repeated_key_resolution {L : Libs} (u : QUrl) (e : Env) (s : GAM) :
  let items := queryItems u in
  let n := next_id s in
  let q := QueryGet n (lastValue "artist" items) (lastValue "title" items)
                    (lastValue "album" items) in
  let hint := if QStr.isEmpty (lastValue "url" items) then []
              else [SetResultHint n (lastValue "url" items)] in
  (forall key pre v post,
      items = (pre ++ (key, v) :: post)%list -> absent key pre = true ->
      queryItemValue u key = v)
  /\ (forall key pre v post,
         items = (pre ++ (key, v) :: post)%list -> absent key post = true ->
         lastValue key items = v)
  /\ (hd_error (commandParts u) = Some "track" ->
      hasQueryItem u "spotifyURI" || hasQueryItem u "spotifyURL" = false ->
      calls (handlePlayCommand u e s)
      = (q :: hint ++ [PipelineResolve n; ConnectResolvingFinished n])%list)
  /\ (hd_error (commandParts u) = Some "track" ->
      calls (handleBookmarkCommand u e s)
      = (q :: hint ++ PipelineResolve n
           :: match bookmarksPlaylist e with
              | None => [CreateBookmarksPlaylist; ConnectBookmarkPlaylistCreated]
              | Some pl =>
                  [PlaylistAddEntry pl n (match firstResultDuration e n with
                                          | Some d => d
                                          | None => 0
                                          end);
                   ConnectRevisionLoaded pl]
              end)%list)
  /\ (forall parts,
         hd_error parts = Some "track" ->
         fold_left spotifyStep items EmptyString = EmptyString ->
         QStr.isEmpty (lastValue "title" items) && QStr.isEmpty (lastValue "artist" items)
         && QStr.isEmpty (lastValue "album" items) = false ->
         calls (doQueueAdd parts items e s)
         = (q :: hint ++ PipelineResolve n :: QueueAppend n :: ShowQueue
              :: (if isPlaying e then [] else [ConnectResolvingFinished n]))%list)
  /\ (forall parts pre v post,
         hd_error parts = Some "track" ->
         fold_left spotifyStep items EmptyString = EmptyString ->
         QStr.isEmpty (lastValue "title" items) && QStr.isEmpty (lastValue "artist" items)
         && QStr.isEmpty (lastValue "album" items) = true ->
         items = (pre ++ ("url", v) :: post)%list -> absent "url" pre = true ->
         calls (doQueueAdd parts items e s)
         = if QStr.startsWith (fromUserInput v) "file://" then []
           else [QueryGet n EmptyString (urlBaseName v) EmptyString;
                 SetResultHint n (fromUserInput v);
                 PipelineResolve n; QueueAppend n; ShowQueue])
  /\ buildControls items = flat_map contribution items.
Proof.
  intros items n q hint. subst n q hint. repeat split.
  - intros key pre v post Hi Ha. destruct u as [p its]. subst items. simpl in Hi. subst its.
    now apply queryItemValue_first.
  - intros key pre v post Hi Ha. rewrite Hi. now apply lastOr_last.
  - intros Hp Hs. unfold handlePlayCommand.
    destruct (commandParts u) as [|p0 rest]; [discriminate|].
    simpl in Hp. injection Hp as ->. simpl.
    apply orb_false_elim in Hs. destruct Hs as [H1 H2].
    unfold playSpotify. rewrite H1, H2. simpl.
    fold items. rewrite (scan_last items). unfold setHintIfAny.
    cbn [f_title f_artist f_album f_urlStr].
    destruct (QStr.isEmpty (lastValue "url" items)); reflexivity.
  - intros Hp. unfold handleBookmarkCommand.
    destruct (commandParts u) as [|p0 rest]; [discriminate|].
    simpl in Hp. injection Hp as ->. simpl.
    fold items. rewrite (scan_last items). simpl.
    unfold setHintIfAny.
    destruct e as [ip bk pbl frd].
    destruct (QStr.isEmpty (lastValue "url" items)), bk; reflexivity.
  - intros parts Hp Hs Hne. unfold doQueueAdd.
    destruct parts as [|p0 rest]; [discriminate|].
    simpl in Hp. injection Hp as ->. simpl.
    unfold queueSpotify. rewrite Hs. simpl.
    rewrite (scan_last items). cbn [f_title f_artist f_album f_urlStr].
    assert (Hor : negb (QStr.isEmpty (lastValue "title" items))
                  || negb (QStr.isEmpty (lastValue "artist" items))
                  || negb (QStr.isEmpty (lastValue "album" items)) = true).
    { destruct (QStr.isEmpty (lastValue "title" items)),
               (QStr.isEmpty (lastValue "artist" items)),
               (QStr.isEmpty (lastValue "album" items)); simpl in *; congruence. }
    rewrite Hor. unfold setHintIfAny. rewrite ?bind_calls.
    destruct e as [ip bk pbl frd].
    destruct (QStr.isEmpty (lastValue "url" items)), ip; reflexivity.
  - intros parts pre v post Hp Hs Hf Hi Ha. unfold items in *. unfold doQueueAdd.
    destruct parts as [|p0 rest]; [discriminate|].
    simpl in Hp. injection Hp as ->. rewrite String.eqb_refl.
    unfold queueSpotify. rewrite Hs.
    rewrite (scan_last (queryItems u)). cbn [f_title f_artist f_album f_urlStr].
    apply andb_prop in Hf. destruct Hf as [Hf Hal].
    apply andb_prop in Hf. destruct Hf as [Ht Hart].
    rewrite Ht, Hart, Hal.
    rewrite Hi, (find_first "url" pre post v Ha). cbn [snd].
    destruct (QStr.startsWith (fromUserInput v) "file://"); reflexivity.
  - apply buildControls_flat_map.
Qed.

(** The theorem on the items of a play link with two titles and two urls:
    the query carries the second title and is hinted with the second
    url. *)
Lemma repeated_key_resolution_witness :
  calls (handlePlayCommand
           (fromEncoded "play/track?title=First&url=one&title=Second&url=two")
           idleEnv init)
  = [QueryGet 0 EmptyString "Second" EmptyString; SetResultHint 0 "two";
     PipelineResolve 0; ConnectResolvingFinished 0].
Proof.
  destruct (repeated_key_resolution
              (fromEncoded "play/track?title=First&url=one&title=Second&url=two")
              idleEnv init)
    as (_ & _ & Hplay & _).
  apply Hplay; reflexivity.
Defined.

(** C5 as stated fails: in a play link with two titles the first one is
    what [queryItemValue] would return, and the query is built with the
    second. *)
Lemma play_uses_last_title :
  queryItemValue (fromEncoded (commandText "tomahawk://play/track?title=First&title=Second"))
                 "title" = "First"
  /\ calls (parseTomahawkLink "tomahawk://play/track?title=First&title=Second" idleEnv init)
     = [Log "Parsing tomahawk link command"; QueryGet 0 EmptyString "Second" EmptyString;
        PipelineResolve 0; ConnectResolvingFinished 0]
  /\ ~ In (QueryGet 0 EmptyString "First" EmptyString)
          (calls (parseTomahawkLink "tomahawk://play/track?title=First&title=Second"
                                    idleEnv init)).
Proof.
  split; [reflexivity|]. split; [reflexivity|].
  simpl. intros [H | [H | [H | [H | []]]]]; discriminate.
Qed.

(** ** C2: bookmark links *)

Section Bookmark.
Context {L : Libs}.

(** [handlePlayCommand] leaves the bookmarks playlist and the bookmark
    slot alone. *)
Lemma handlePlayCommand_no_bookmark u e s :
  let r := handlePlayCommand u e s in
  no_bookmark_call (calls r) = true
  /\ m_waitingToBookmark (after r) = m_waitingToBookmark s
  /\ m_toShow (after r) = m_toShow s.
Proof.
  unfold handlePlayCommand.
  destruct (commandParts u) as [|p0 rest]; [repeat split|].
  destruct (p0 =? "track"); [|repeat split].
  unfold playSpotify.
  destruct (negb (hasQueryItem u "spotifyURI") && negb (hasQueryItem u "spotifyURL"));
    [|repeat split].
  unfold setHintIfAny.
  destruct (negb (QStr.isEmpty (f_urlStr (scanTrackFields (queryItems u)))));
    repeat split.
Qed.

(** What the handler written for bookmark links does with a track
    command: it builds the query, then appends an entry to the bookmarks
    playlist if there is one, and otherwise parks the query and asks for
    the playlist to be created. *)
Lemma handleBookmarkCommand_bookmarks u e s :
  hd_error (commandParts u) = Some "track" ->
  let r := handleBookmarkCommand u e s in
  result r = true
  /\ match bookmarksPlaylist e with
     | Some pl =>
         In (PlaylistAddEntry pl (next_id s)
               (match firstResultDuration e (next_id s) with Some d => d | None => 0 end))
            (calls r)
         /\ m_toShow (after r) = Some pl
     | None =>
         In CreateBookmarksPlaylist (calls r)
         /\ In ConnectBookmarkPlaylistCreated (calls r)
         /\ m_waitingToBookmark (after r) = Some (next_id s)
     end.
Proof.
  intros Hp. unfold handleBookmarkCommand.
  destruct (commandParts u) as [|p0 rest]; [discriminate|].
  simpl in Hp. injection Hp as ->. simpl.
  unfold setHintIfAny, doBookmark.
  destruct e as [ip bk pbl frd]. cbn [bookmarksPlaylist firstResultDuration].
  destruct (negb (QStr.isEmpty (f_urlStr (scanTrackFields (queryItems u))))), bk;
    cbv [bind ret emit ask fresh log Query_get set_waitingToBookmark set_toShow
         calls result after fst snd app bookmarksPlaylist firstResultDuration
         m_toShow m_waitingToBookmark m_waitingToPlay next_id];
    simpl; tauto.
Qed.

End Bookmark.

(** C2: what the router does with a bookmark link.  Every link of command
    type [bookmark] is handed to [handlePlayCommand]: no call touches the
    bookmarks playlist and the bookmark slot and the playlist to show keep
    their values. *)
Theorem bookmark_link_never_bookmarks {L : Libs} (url : string) (e : Env) (s : GAM) :
  QStr.contains url "tomahawk://" = true ->
  commandType url = "bookmark" ->
  let r := parseTomahawkLink url e s in
  parseTomahawkLink url
  = (log "Parsing tomahawk link command" ;;
     handlePlayCommand (fromEncoded (commandText url)))
  /\ no_bookmark_call (calls r) = true
  /\ m_waitingToBookmark (after r) = m_waitingToBookmark s
  /\ m_toShow (after r) = m_toShow s.
Proof.
  intros Hc Ht r. subst r. rewrite (route_bookmark url Hc Ht).
  split; [reflexivity|].
  rewrite bind_calls, bind_after. cbn [log emit calls after result fst snd app].
  destruct (handlePlayCommand_no_bookmark (fromEncoded (commandText url)) e s)
    as (H1 & H2 & H3).
  auto.
Qed.

(** The theorem on [tomahawk://bookmark/track?title=Uprising&artist=Muse]
    while the bookmarks playlist 7 exists: the query is registered for
    playback and nothing is appended, whereas [handleBookmarkCommand] on
    the same command appends the entry. *)
Lemma bookmark_link_never_bookmarks_witness :
  parseTomahawkLink "tomahawk://bookmark/track?title=Uprising&artist=Muse"
                    (bookmarksEnv 7) init
  = (true, mkGAM (Some 0) None None 1,
     [Log "Parsing tomahawk link command"; QueryGet 0 "Muse" "Uprising" EmptyString;
      PipelineResolve 0; ConnectResolvingFinished 0])
  /\ no_bookmark_call
       (calls (parseTomahawkLink "tomahawk://bookmark/track?title=Uprising&artist=Muse"
                                 (bookmarksEnv 7) init)) = true
  /\ handleBookmarkCommand
       (fromEncoded (commandText "tomahawk://bookmark/track?title=Uprising&artist=Muse"))
       (bookmarksEnv 7) init
     = (true, mkGAM None None (Some 7) 1,
        [QueryGet 0 "Muse" "Uprising" EmptyString; PipelineResolve 0;
         PlaylistAddEntry 7 0 0; ConnectRevisionLoaded 7]).
Proof.
  split; [reflexivity|]. split; [|reflexivity].
  assert (Hc : QStr.contains "tomahawk://bookmark/track?title=Uprising&artist=Muse"
                             "tomahawk://" = true) by reflexivity.
  assert (Ht : commandType "tomahawk://bookmark/track?title=Uprising&artist=Muse"
               = "bookmark") by reflexivity.
  exact (proj1 (proj2 (bookmark_link_never_bookmarks
                         "tomahawk://bookmark/track?title=Uprising&artist=Muse"
                         (bookmarksEnv 7) init Hc Ht))).
Defined.

(** ** C8: the scheme test *)

Section Scheme.
Context {L : Libs}.

Lemma startsWith_contains s t : QStr.startsWith s t = true -> QStr.contains s t = true.
Proof. intros H. destruct s; simpl; rewrite H; reflexivity. Qed.

(** A link that begins with the scheme is never turned away as foreign:
    the first call logs the command being parsed. *)
Lemma scheme_prefix_proceeds url e s :
  QStr.startsWith url "tomahawk://" = true ->
  hd_error (calls (parseTomahawkLink url e s))
  = Some (Log "Parsing tomahawk link command").
Proof.
  intros H. apply startsWith_contains in H.
  unfold parseTomahawkLink. rewrite H. rewrite bind_calls. reflexivity.
Qed.

(** The foreign-link branch is taken exactly when the scheme text occurs
    nowhere in the input. *)
Lemma not_our_scheme_iff url e s :
  calls (parseTomahawkLink url e s) = [Log "Not a tomahawk:// link!"]
  <-> QStr.contains url "tomahawk://" = false.
Proof.
  split.
  - intros H. destruct (QStr.contains url "tomahawk://") eqn:Hc; [|reflexivity].
    unfold parseTomahawkLink in H. rewrite Hc, bind_calls in H. discriminate.
  - intros H. now rewrite (parse_scheme_absent url e s H).
Qed.

End Scheme.

(** C8: the code at an input that does not begin with the scheme.  The text
    [http://a.b/play/track?title=tomahawk://] does not start with
    [tomahawk://], yet it is not rejected: the scheme text occurs inside
    it, its first eleven characters are dropped, and the rest is carried
    out as a play command (the link is accepted and a query is resolved
    and registered for playback). *)
Theorem scheme_inside_is_accepted :
  QStr.startsWith "http://a.b/play/track?title=tomahawk://" "tomahawk://" = false
  /\ commandText "http://a.b/play/track?title=tomahawk://" = "play/track?title=tomahawk://"
  /\ parseTomahawkLink "http://a.b/play/track?title=tomahawk://" idleEnv init
     = (true, mkGAM (Some 0) None None 1,
        [Log "Parsing tomahawk link command"; QueryGet 0 EmptyString "tomahawk://" EmptyString;
         PipelineResolve 0; ConnectResolvingFinished 0]).
Proof. repeat split. Qed.

(** ** C1: outbound links and the parser *)

Section Outbound.
Context {L : Libs}.

Lemma commandType_origin rest : commandType ("http://toma.hk/" ++ rest) = ".hk".
Proof. reflexivity. Qed.

(** The parser rejects every text on the origin, without a call to a
    collaborator and without touching a member. *)
Lemma origin_rejected text e s :
  on_origin text ->
  let r := parseTomahawkLink text e s in
  result r = false /\ after r = s /\ only_logs (calls r) = true.
Proof.
  intros [rest ->]. cbv zeta.
  destruct (QStr.contains ("http://toma.hk/" ++ rest) "tomahawk://") eqn:Hc.
  - rewrite (route_unknown _ e s Hc); [repeat split|].
    rewrite commandType_origin. reflexivity.
  - rewrite (parse_scheme_absent _ e s Hc). repeat split.
Qed.

Lemma openLink_base title artist album :
  base (openLink title artist album) = "http://toma.hk/open/track/".
Proof. destruct title, artist, album; reflexivity. Qed.

Lemma toEncoded_on_origin l : on_origin (base l) -> on_origin (toEncoded l).
Proof.
  intros [rest Hb]. unfold toEncoded. rewrite Hb.
  destruct (items l); eexists; reflexivity.
Qed.

Lemma clipboardData_on_origin l : on_origin (base l) -> on_origin (clipboardData l).
Proof.
  intros [rest Hb]. unfold clipboardData, toEncoded. rewrite Hb.
  destruct (items l); eexists; reflexivity.
Qed.

Lemma openLink_on_origin title artist album :
  on_origin (base (openLink title artist album)).
Proof. rewrite openLink_base. eexists; reflexivity. Qed.

Lemma fold_addQueryItem_base {A} (f : A -> string * string) (cs : list A) l :
  base (fold_left (fun l c => addQueryItem l (fst (f c)) (snd (f c))) cs l) = base l.
Proof.
  revert l. induction cs as [|c cs IH]; intros l; simpl; [reflexivity|].
  now rewrite IH.
Qed.

(** What [copyToClipboard] puts on the clipboard is rejected by the
    parser. *)
Lemma copied_track_link_rejected query e s data e' s' :
  In (ClipboardSetText data) (calls (copyToClipboard query e s)) ->
  result (parseTomahawkLink data e' s') = false.
Proof.
  unfold copyToClipboard. simpl. intros [H | []]. injection H as <-.
  apply origin_rejected, clipboardData_on_origin.
  unfold openLinkFromQuery. destruct (firstResult query); apply openLink_on_origin.
Qed.

(** So is what [copyPlaylistToClipboard] puts there for a station or an
    autoplaylist. *)
Lemma copied_playlist_link_rejected playlist e s data e' s' :
  In (ClipboardSetText data) (calls (copyPlaylistToClipboard playlist e s)) ->
  result (parseTomahawkLink data e' s') = false.
Proof.
  unfold copyPlaylistToClipboard.
  destruct (negb (pl_generatorType playlist =? "echonest")); simpl.
  - intros [H | []]. discriminate.
  - intros [H | []]. injection H as <-.
    apply origin_rejected, clipboardData_on_origin.
    rewrite fold_addQueryItem_base. cbn [addQueryItem base].
    destruct (pl_mode playlist); eexists; reflexivity.
Qed.

End Outbound.

(** C1, as the code behaves.  The text of an outbound link ([toEncoded] of
    [openLink], and the clipboard form with ['] as [%27]) lies on the fixed
    origin [http://toma.hk/], and [parseTomahawkLink] rejects it: it
    returns false, changes no member and calls no collaborator (it only
    logs).  The link's content does survive the handler it is meant for:
    [handleOpenCommand] on the link's path [open/track/] and query items
    builds exactly one query with the same artist, title and album, and
    succeeds, unless all three are empty. *)
Theorem outbound_link_rejected {L : Libs} (title artist album : string)
        (e : Env) (s : GAM) :
  let link := openLink title artist album in
  let r1 := parseTomahawkLink (toEncoded link) e s in
  let r2 := parseTomahawkLink (clipboardData link) e s in
  let r3 := handleOpenCommand (mkQUrl "open/track/" (items link)) e s in
  let none := QStr.isEmpty title && QStr.isEmpty artist && QStr.isEmpty album in
  on_origin (toEncoded link) /\ on_origin (clipboardData link)
  /\ (result r1 = false /\ after r1 = s /\ only_logs (calls r1) = true)
  /\ (result r2 = false /\ after r2 = s /\ only_logs (calls r2) = true)
  /\ result r3 = negb none
  /\ filter is_QueryGet (calls r3)
     = (if none then [] else [QueryGet (next_id s) artist title album]).
Proof.
  cbv zeta.
  pose proof (toEncoded_on_origin _ (openLink_on_origin title artist album)) as H1.
  pose proof (clipboardData_on_origin _ (openLink_on_origin title artist album)) as H2.
  split; [exact H1|]. split; [exact H2|].
  split; [exact (origin_rejected _ e s H1)|].
  split; [exact (origin_rejected _ e s H2)|].
  destruct e as [ip bk pbl frd].
  destruct title, artist, album, ip; split; reflexivity.
Qed.

(** C1 as stated fails: the text encoded for the track Uprising by Muse is
    not accepted by the parser. *)
Lemma decode_of_encode_is_rejected :
  toEncoded (openLink "Uprising" "Muse" EmptyString)
  = "http://toma.hk/open/track/?title=Uprising&artist=Muse"
  /\ parseTomahawkLink (toEncoded (openLink "Uprising" "Muse" EmptyString)) idleEnv init
     = (false, init, [Log "Not a tomahawk:// link!"]).
Proof. split; reflexivity. Qed.

(** ** C3 and C4: the play slot *)

Section Slot.
Context {L : Libs}.

Lemma quiet_tracks {A} (c : M A) : quiet c -> tracks c.
Proof.
  intros H e s reg Hok. destruct (H e s) as [Hs Hr].
  unfold slot_ok in *. now rewrite Hs, Hr.
Qed.

Lemma quiet_ret {A} (a : A) : quiet (ret a).
Proof. intros e s. split; reflexivity. Qed.

Lemma quiet_emit ev : (forall reg, regStep reg ev = reg) -> quiet (emit ev).
Proof. intros H e s. split; [reflexivity|]. intros reg. simpl. apply H. Qed.

Lemma quiet_log msg : quiet (log msg).
Proof. apply quiet_emit. reflexivity. Qed.

Lemma quiet_ask : quiet ask.
Proof. intros e s. split; reflexivity. Qed.

Lemma quiet_get : quiet get.
Proof. intros e s. split; reflexivity. Qed.

Lemma quiet_fresh : quiet fresh.
Proof. intros e s. split; reflexivity. Qed.

Lemma quiet_set_toShow p : quiet (set_toShow p).
Proof. intros e s. split; reflexivity. Qed.

Lemma quiet_set_waitingToBookmark q : quiet (set_waitingToBookmark q).
Proof. intros e s. split; reflexivity. Qed.

Lemma quiet_bind {A B} (c : M A) (k : A -> M B) :
  quiet c -> (forall a, quiet (k a)) -> quiet (bind c k).
Proof.
  intros Hc Hk e s. rewrite bind_after, bind_calls.
  destruct (Hc e s) as [Hs Hr].
  destruct (Hk (result (c e s)) e (after (c e s))) as [Hs' Hr'].
  split; [congruence|].
  intros reg. now rewrite fold_left_app, Hr, Hr'.
Qed.

Lemma tracks_bind {A B} (c : M A) (k : A -> M B) :
  tracks c -> (forall a, tracks (k a)) -> tracks (bind c k).
Proof.
  intros Hc Hk e s reg Hok. rewrite bind_after, bind_calls, fold_left_app.
  apply Hk. apply Hc. exact Hok.
Qed.

(** [m_waitingToPlay = q; connect( q, ... )], then the rest. *)
Lemma tracks_assign_connect {A} q (k : M A) :
  tracks k ->
  tracks (set_waitingToPlay (Some q) ;; emit (ConnectResolvingFinished q) ;; k).
Proof.
  intros Hk e s reg _.
  rewrite !bind_after, !bind_calls, !fold_left_app.
  apply Hk. right. reflexivity.
Qed.

Lemma tracks_assign_connect_end q :
  tracks (set_waitingToPlay (Some q) ;; emit (ConnectResolvingFinished q)).
Proof. intros e s reg _. right. reflexivity. Qed.

(** [connect( q, ... ); m_waitingToPlay = q]. *)
Lemma tracks_connect_assign q :
  tracks (emit (ConnectResolvingFinished q) ;; set_waitingToPlay (Some q)).
Proof. intros e s reg _. right. reflexivity. Qed.

Lemma tracks_clear : tracks (set_waitingToPlay None).
Proof. intros e s reg _. left. reflexivity. Qed.

Lemma tracks_play_clear :
  tracks (emit AudioEnginePlay ;; set_waitingToPlay None).
Proof. intros e s reg _. left. reflexivity. Qed.

(** Decomposes a goal on a member function along its control flow. *)
Ltac slot :=
  repeat
    (cbv zeta;
     match goal with
     | |- tracks (if ?b then _ else _) => destruct b
     | |- tracks (match ?x with _ => _ end) => destruct x
     | |- tracks (bind (set_waitingToPlay (Some ?q))
                       (fun _ => bind (emit (ConnectResolvingFinished ?q)) _)) =>
         apply tracks_assign_connect
     | |- tracks (bind (set_waitingToPlay (Some ?q))
                       (fun _ => emit (ConnectResolvingFinished ?q))) =>
         apply tracks_assign_connect_end
     | |- tracks (bind (emit (ConnectResolvingFinished ?q))
                       (fun _ => set_waitingToPlay (Some ?q))) =>
         apply tracks_connect_assign
     | |- tracks (bind (emit AudioEnginePlay) (fun _ => set_waitingToPlay None)) =>
         apply tracks_play_clear
     | |- tracks (set_waitingToPlay None) => apply tracks_clear
     | H : tracks ?c |- tracks ?c => exact H
     | |- tracks (bind _ _) => apply tracks_bind; [|intros]
     | |- tracks (ret _) => apply quiet_tracks
     | |- tracks (emit _) => apply quiet_tracks
     | |- tracks (log _) => apply quiet_tracks
     | |- tracks ask => apply quiet_tracks
     | |- tracks get => apply quiet_tracks
     | |- tracks fresh => apply quiet_tracks
     | |- tracks (set_toShow _) => apply quiet_tracks
     | |- tracks (set_waitingToBookmark _) => apply quiet_tracks
     | |- quiet (if ?b then _ else _) => destruct b
     | |- quiet (match ?x with _ => _ end) => destruct x
     | |- quiet (bind _ _) => apply quiet_bind; [|intros]
     | |- quiet (ret _) => apply quiet_ret
     | |- quiet (log _) => apply quiet_log
     | |- quiet (emit _) => apply quiet_emit; intros; reflexivity
     | |- quiet ask => apply quiet_ask
     | |- quiet get => apply quiet_get
     | |- quiet fresh => apply quiet_fresh
     | |- quiet (set_toShow _) => apply quiet_set_toShow
     | |- quiet (set_waitingToBookmark _) => apply quiet_set_waitingToBookmark
     end).









(** Playback starts only from the callback of the query in the slot. *)
Lemma waitingForResolved_calls sender e s :
  calls (waitingForResolved sender e s)
  = if is_sender (m_waitingToPlay s) sender && playable e sender
    then [AudioEnginePlay] else [].
Proof.
  unfold waitingForResolved. cbv [bind get ask calls fst snd app].
  destruct (m_waitingToPlay s) as [q|] eqn:Hq; simpl; [|reflexivity].
  destruct (Nat.eqb_spec q sender) as [->|Hne]; simpl; [|reflexivity].
  destruct (playable e sender); reflexivity.
Qed.


End Slot.

Section Supersession.
Context {L : Libs}.




End Supersession.



(** C4, as the slot behaves.  A callback whose query is not the one in the
    play slot makes no call, and it empties the slot: the query that was
    registered is forgotten, the other members keep their values.  Only
    when the slot was already empty are the members unchanged. *)
Theorem stale_callback_clears_slot (sender : nat) (e : Env) (s : GAM) :
  is_sender (m_waitingToPlay s) sender = false ->
  let r := waitingForResolved sender e s in
  calls r = []
  /\ after r = mkGAM None (m_waitingToBookmark s) (m_toShow s) (next_id s)
  /\ (after r = s <-> m_waitingToPlay s = None).
Proof.
  intros H. cbv zeta. rewrite waitingForResolved_calls, H.
  split; [reflexivity|].
  assert (Ha : after (waitingForResolved sender e s)
               = mkGAM None (m_waitingToBookmark s) (m_toShow s) (next_id s)).
  { unfold waitingForResolved. cbv [bind get after fst snd]. rewrite H. reflexivity. }
  split; [exact Ha|].
  rewrite Ha. destruct s as [w b t n]; simpl. split.
  - intros Heq. now injection Heq.
  - intros ->. reflexivity.
Qed.

(** The theorem after two play links, on the callback of the first. *)
Lemma stale_callback_clears_slot_witness :
  is_sender (m_waitingToPlay (fst (run twoPlayLinks))) 0 = false
  /\ after (waitingForResolved 0 playableEnv (fst (run twoPlayLinks)))
     = mkGAM None None None 2.
Proof.
  split; [reflexivity|].
  exact (proj1 (proj2 (stale_callback_clears_slot 0 playableEnv (fst (run twoPlayLinks))
                         eq_refl))).
Defined.

(** C4 as stated fails: after two play links the slot holds the second
    query; the callback of the first one is not that of the registered
    query, and it changes the members: the slot is emptied, and the
    callback of the second, playable query then starts nothing. *)
Lemma stale_callback_is_not_a_noop :
  let s := fst (run twoPlayLinks) in
  let s' := after (waitingForResolved 0 playableEnv s) in
  m_waitingToPlay s = Some 1
  /\ is_sender (m_waitingToPlay s) 0 = false
  /\ s' <> s
  /\ m_waitingToPlay s' = None
  /\ calls (waitingForResolved 1 playableEnv s) = [AudioEnginePlay]
  /\ calls (waitingForResolved 1 playableEnv s') = [].
Proof.
  cbv zeta. repeat split. discriminate.
Qed.

(** ** C7: chains of shortened links *)

Lemma handleTrackUrls_shortened urls e s :
  takenAsShortened urls = true ->
  handleTrackUrls urls e s
  = (tt, s, [Log "Got a list of shortened urls!";
             ShortenedLinkParserNew (QStr.split (ascii_of_nat 10) urls)]).
Proof.
  unfold takenAsShortened, handleTrackUrls. intros H.
  apply andb_prop in H. destruct H as [H H3].
  apply andb_prop in H. destruct H as [H1 H2].
  apply negb_true_iff in H1. apply negb_true_iff in H2.
  rewrite H1, H2, H3. reflexivity.
Qed.

Lemma roundTrips_loop n :
  roundTrips n loopingNet (calls (expandedUrls ["http://bit.ly/loop"] idleEnv init)) = n.
Proof.
  induction n as [|n IH]; [reflexivity|].
  change (roundTrips (S n) loopingNet
            (calls (expandedUrls ["http://bit.ly/loop"] idleEnv init)))
    with (S (roundTrips n loopingNet
               (calls (expandedUrls ["http://bit.ly/loop"] idleEnv init)))).
  now rewrite IH.
Qed.

(** C7, as the code behaves.  The urls an expansion delivers are joined and
    classified by [handleTrackUrls] exactly like a dropped text; when the
    joined text is taken as shortened (a shortener domain and no spotify or
    rdio pattern) a new [ShortenedLinkParser] is started for it and nothing
    else happens, so an expanded url that is itself a shortener url is
    expanded again.  No step counts the levels: on a network where every
    shortened link leads to another one, following a dropped shortened link
    for [n] steps performs [n] round trips, for every [n]. *)
Theorem expanded_shortener_is_expanded_again (urls : list string) (e : Env) (s : GAM)
        (n : nat) :
  expandedUrls urls e s = handleTrackUrls (QStr.join QStr.newline urls) e s
  /\ (takenAsShortened (QStr.join QStr.newline urls) = true ->
      expandedUrls urls e s
      = (tt, s, [Log "Got a list of shortened urls!";
                 ShortenedLinkParserNew
                   (QStr.split (ascii_of_nat 10) (QStr.join QStr.newline urls))]))
  /\ roundTrips n loopingNet (calls (handleTrackUrls "http://bit.ly/xyz" e s)) = n.
Proof.
  split; [reflexivity|]. split.
  - intros H. unfold expandedUrls. now apply handleTrackUrls_shortened.
  - destruct n as [|n]; [reflexivity|].
    change (roundTrips (S n) loopingNet (calls (handleTrackUrls "http://bit.ly/xyz" e s)))
      with (S (roundTrips n loopingNet
                 (calls (expandedUrls ["http://bit.ly/loop"] idleEnv init)))).
    now rewrite roundTrips_loop.
Qed.

(** The theorem on an expansion answered with another shortened link. *)
Lemma expanded_shortener_is_expanded_again_witness :
  takenAsShortened (QStr.join QStr.newline ["http://j.mp/second"]) = true
  /\ expandedUrls ["http://j.mp/second"] idleEnv init
     = (tt, init, [Log "Got a list of shortened urls!";
                   ShortenedLinkParserNew ["http://j.mp/second"]]).
Proof.
  split; [reflexivity|].
  exact (proj1 (proj2 (expanded_shortener_is_expanded_again
                         ["http://j.mp/second"] idleEnv init 0)) eq_refl).
Defined.

(** C7 as stated fails: when the expansion of a shortened link yields
    another shortened link, the result is not empty: a further expansion is
    started for it. *)
Lemma shortener_redirect_is_followed :
  expansionRequests (calls (handleTrackUrls "https://bit.ly/xyz" idleEnv init))
  = [["https://bit.ly/xyz"]]
  /\ expansionRequests (calls (expandedUrls ["http://j.mp/second"] idleEnv init))
     = [["http://j.mp/second"]]
  /\ calls (expandedUrls ["http://j.mp/second"] idleEnv init) <> [].
Proof. repeat split. discriminate. Qed.

(** * Further properties of the manager *)

(** ** Search links *)

Lemma join_isEmpty (l : list string) :
  QStr.isEmpty (QStr.join " " l) = true <-> l = [] \/ l = [EmptyString].
Proof.
  destruct l as [|x [|y t]]; simpl.
  - split; auto.
  - destruct x; simpl; split; intros H; auto; try discriminate.
    destruct H as [H | H]; discriminate.
  - split; [|intros [H | H]; discriminate].
    destruct x; simpl; discriminate.
Qed.

(** X1.  [handleSearchCommand] changes no member; it rejects a link exactly
    when the link carries none of [artist], [album], [title], or exactly
    one of them with an empty value; otherwise it shows the super
    collection and sets as filter the values present, in the order artist,
    album, title, joined by single spaces. *)
Theorem search_rejects_only_empty_filter (url : QUrl) (e : Env) (s : GAM) :
  let r := handleSearchCommand url e s in
  after r = s
  /\ (result r = false <-> searchFields url = [] \/ searchFields url = [EmptyString])
  /\ calls r = (if result r
                then [ShowSuperCollection; SetFilter (QStr.join " " (searchFields url))]
                else []).
Proof.
  cbv zeta. unfold handleSearchCommand. cbv zeta.
  change ((if hasQueryItem url "artist" then [queryItemValue url "artist"] else [])
          ++ (if hasQueryItem url "album" then [queryItemValue url "album"] else [])
          ++ (if hasQueryItem url "title" then [queryItemValue url "title"] else []))%list
    with (searchFields url).
  pose proof (join_isEmpty (searchFields url)) as Hj.
  destruct (QStr.isEmpty (QStr.join " " (searchFields url))); simpl.
  - repeat split; try reflexivity. intros _. now apply Hj.
  - repeat split; try reflexivity; try discriminate.
    intros H. apply Hj in H. discriminate.
Qed.

(** ** The command type is cut from the whole command text *)

(** X2.  The command type is the text before the first [/] of the command
    text, query string included.  So a link that puts the query right
    after a command name, without a [/] in between, as in
    [tomahawk://load?xspf=...], is rejected as an unknown command for every
    command name the router knows, whatever the query: no member changes
    and nothing but the two log lines is emitted. *)
Theorem slashless_link_rejected {L : Libs} (name query : string) (e : Env) (s : GAM) :
  In name known_commands ->
  parseTomahawkLink ("tomahawk://" ++ name ++ "?" ++ query) e s
  = (false, s, [Log "Parsing tomahawk link command";
                Log "Tomahawk link not supported, command not known!"]).
Proof.
  intros Hin.
  assert (Hc : QStr.contains ("tomahawk://" ++ name ++ "?" ++ query) "tomahawk://" = true)
    by reflexivity.
  apply route_unknown; [exact Hc|].
  unfold known_commands in Hin. simpl in Hin.
  repeat (destruct Hin as [<- | Hin]);
    try (unfold commandType, commandText; simpl;
         destruct (QStr.split "/" (QStr.replace_from 0 "%2B" "%20" query));
         reflexivity).
  destruct Hin.
Qed.

(** The theorem on the legacy form [tomahawk://load?xspf=...]. *)
Lemma slashless_link_rejected_witness :
  In "load" known_commands
  /\ parseTomahawkLink "tomahawk://load?xspf=http://example.org/list.xspf" idleEnv init
     = (false, init, [Log "Parsing tomahawk link command";
                      Log "Tomahawk link not supported, command not known!"]).
Proof.
  assert (Hin : In "load" known_commands) by (left; reflexivity).
  split; [exact Hin|].
  exact (slashless_link_rejected "load" "xspf=http://example.org/list.xspf"
           idleEnv init Hin).
Defined.

(** ** The substitution of [%2B] *)

Section Substitution.

(** How the substitution proceeds on a text: over an occurrence, over the
    end, or over one character. *)
Lemma replace_cases s :
  (exists t, s = "%2B" ++ t
             /\ QStr.replace "%2B" "%20" s = "%20" ++ QStr.replace "%2B" "%20" t)
  \/ (s = EmptyString /\ QStr.replace "%2B" "%20" s = EmptyString)
  \/ (exists c t, s = String c t /\ QStr.startsWith s "%2B" = false
                  /\ QStr.replace "%2B" "%20" s = String c (QStr.replace "%2B" "%20" t)).
Proof.
  destruct s as [|a s]; [right; left; split; reflexivity|].
  destruct (QStr.startsWith (String a s) "%2B") eqn:E.
  - left. destruct s as [|b [|c t]]; simpl in E;
      repeat (apply andb_prop in E; destruct E as [?H E]);
      try discriminate.
    apply Ascii.eqb_eq in H, H0, H1. subst. exists t. split; reflexivity.
  - right; right. exists a, s. repeat split.
    unfold QStr.replace. cbn [QStr.replace_from]. now rewrite E.
Qed.

Lemma replace_keeps_B t :
  QStr.startsWith (QStr.replace "%2B" "%20" t) "B" = QStr.startsWith t "B".
Proof.
  destruct (replace_cases t) as [(u & -> & Hr) | [(-> & Hr) | (c & u & -> & _ & Hr)]];
    rewrite Hr; reflexivity.
Qed.

Lemma replace_keeps_2B t :
  QStr.startsWith (QStr.replace "%2B" "%20" t) "2B" = QStr.startsWith t "2B".
Proof.
  destruct (replace_cases t) as [(u & -> & Hr) | [(-> & Hr) | (c & u & -> & _ & Hr)]];
    rewrite Hr; try reflexivity.
  change (QStr.startsWith (String c (QStr.replace "%2B" "%20" u)) "2B")
    with (Ascii.eqb c "2" && QStr.startsWith (QStr.replace "%2B" "%20" u) "B").
  now rewrite (replace_keeps_B u).
Qed.

Lemma replace_no_2B_at_head s :
  QStr.startsWith (QStr.replace "%2B" "%20" s) "%2B" = false.
Proof.
  destruct (replace_cases s) as [(u & -> & Hr) | [(-> & Hr) | (c & u & -> & Hs & Hr)]];
    rewrite Hr; try reflexivity.
  change (QStr.startsWith (String c (QStr.replace "%2B" "%20" u)) "%2B")
    with (Ascii.eqb c "%" && QStr.startsWith (QStr.replace "%2B" "%20" u) "2B").
  rewrite replace_keeps_2B. exact Hs.
Qed.

Lemma replace_removes_all n s :
  String.length s <= n -> QStr.contains (QStr.replace "%2B" "%20" s) "%2B" = false.
Proof.
  revert s. induction n as [|n IH]; intros s Hlen.
  - destruct s; [reflexivity | simpl in Hlen; lia].
  - destruct (replace_cases s) as [(u & -> & Hr) | [(-> & Hr) | (c & u & -> & Hs & Hr)]].
    + rewrite Hr.
      change (QStr.contains ("%20" ++ QStr.replace "%2B" "%20" u) "%2B")
        with (QStr.contains (String "0" (QStr.replace "%2B" "%20" u)) "%2B").
      change (QStr.contains (String "0" (QStr.replace "%2B" "%20" u)) "%2B")
        with (QStr.contains (QStr.replace "%2B" "%20" u) "%2B").
      apply IH. simpl in Hlen. lia.
    + reflexivity.
    + pose proof (replace_no_2B_at_head (String c u)) as Hh. rewrite Hr in *.
      cbn [QStr.contains]. rewrite Hh. simpl. apply IH. simpl in Hlen. lia.
Qed.

Lemma replace_identity n s :
  String.length s <= n -> QStr.contains s "%2B" = false ->
  QStr.replace "%2B" "%20" s = s.
Proof.
  revert s. induction n as [|n IH]; intros s Hlen Hc.
  - destruct s; [reflexivity | simpl in Hlen; lia].
  - destruct (replace_cases s) as [(u & -> & Hr) | [(-> & Hr) | (c & u & -> & Hs & Hr)]].
    + discriminate.
    + reflexivity.
    + rewrite Hr. f_equal. apply IH; [simpl in Hlen; lia|].
      cbn [QStr.contains] in Hc. apply orb_false_elim in Hc. tauto.
Qed.

End Substitution.

(** X3.  The router's substitution is exact and case sensitive: after it
    the command text of any link contains no occurrence of the text [%2B]
    (with an upper-case B), each one having become [%20]; and a link whose
    text has no [%2B] is passed on unchanged, the lower-case escape [%2b]
    included, which therefore still reaches the URL parser. *)
Theorem command_text_has_no_encoded_plus (url : string) :
  QStr.contains (commandText url) "%2B" = false
  /\ (QStr.contains (QStr.mid 11 url) "%2B" = false -> commandText url = QStr.mid 11 url).
Proof.
  unfold commandText. split.
  - now apply (replace_removes_all (String.length (QStr.mid 11 url))).
  - now apply (replace_identity (String.length (QStr.mid 11 url))).
Qed.

(** The theorem on a queue link for the title [1+1]: written with [%2B] the
    plus becomes a space, written with [%2b] the link is left as it is and
    the title arrives with its plus sign. *)
Lemma command_text_has_no_encoded_plus_witness :
  commandText "tomahawk://queue/add/track?title=1%2B1" = "queue/add/track?title=1%201"
  /\ commandText "tomahawk://queue/add/track?title=1%2b1" = "queue/add/track?title=1%2b1"
  /\ hd_error (tl (calls (parseTomahawkLink "tomahawk://queue/add/track?title=1%2b1"
                                            idleEnv init)))
     = Some (QueryGet 0 EmptyString "1+1" EmptyString).
Proof.
  split; [reflexivity|]. split; [|reflexivity].
  apply (proj2 (command_text_has_no_encoded_plus "tomahawk://queue/add/track?title=1%2b1")).
  reflexivity.
Defined.

(** ** Rejected links *)

Section Rejection.
Context {L : Libs}.

Lemma result_ret {A} (a : A) e s : result (ret a e s) = a.
Proof. reflexivity. Qed.

(** Follows a sequence to the value it returns. *)
Ltac to_result := repeat (rewrite bind_result || rewrite result_ret).

Lemma clean_reject_log msg (c : M bool) :
  clean_reject c -> clean_reject (log msg ;; c).
Proof.
  intros Hc e s. rewrite bind_result, bind_after, bind_calls.
  cbn [log emit result after calls fst snd app only_logs forallb is_log andb].
  apply Hc.
Qed.

Lemma clean_reject_loadDynamicPlaylist url station :
  clean_reject (pl <- loadDynamicPlaylist url station ;; ret (negb (isNull pl))).
Proof.
  intros e s. unfold loadDynamicPlaylist.
  destruct (commandParts url) as [|p0 rest]; [intros _; split; reflexivity|].
  destruct (p0 =? "create"); [|intros _; split; reflexivity].
  destruct (negb (hasQueryItem url "title") || negb (hasQueryItem url "type"));
    [intros _; split; reflexivity|].
  destruct station; simpl; discriminate.
Qed.

Lemma clean_reject_handleSearchCommand url : clean_reject (handleSearchCommand url).
Proof.
  intros e s. unfold handleSearchCommand. cbv zeta.
  match goal with |- context [if ?b then _ else _] => destruct b end;
    [intros _; split; reflexivity | simpl; discriminate].
Qed.

Lemma clean_reject_handlePlayCommand url : clean_reject (handlePlayCommand url).
Proof.
  intros e s. unfold handlePlayCommand.
  destruct (commandParts url) as [|p0 rest]; [intros _; split; reflexivity|].
  destruct (p0 =? "track"); [|intros _; split; reflexivity].
  unfold playSpotify.
  destruct (negb (hasQueryItem url "spotifyURI") && negb (hasQueryItem url "spotifyURL"));
    to_result; discriminate.
Qed.

Lemma clean_reject_doQueueAdd parts its : clean_reject (doQueueAdd parts its).
Proof.
  intros e s. unfold doQueueAdd.
  destruct parts as [|p0 rest]; [intros _; split; reflexivity|].
  destruct (p0 =? "track"); [|intros _; split; reflexivity].
  unfold queueSpotify.
  destruct (QStr.isEmpty (fold_left spotifyStep its EmptyString));
    [|to_result; discriminate].
  cbv zeta.
  destruct (negb (QStr.isEmpty (f_title (scanTrackFields its)))
            || negb (QStr.isEmpty (f_artist (scanTrackFields its)))
            || negb (QStr.isEmpty (f_album (scanTrackFields its)))).
  - to_result. discriminate.
  - destruct (find (fun kv => fst kv =? "url") its).
    + to_result. discriminate.
    + intros _. split; reflexivity.
Qed.

Lemma clean_reject_handleOpenCommand url : clean_reject (handleOpenCommand url).
Proof.
  unfold handleOpenCommand.
  destruct (commandParts url) as [|p0 rest].
  - intros e s _. split; reflexivity.
  - apply clean_reject_doQueueAdd.
Qed.

End Rejection.

(** X4.  Outside the [playlist], [collection] and [queue] commands, a link
    that [parseTomahawkLink] rejects has had no effect: no member has
    changed and no collaborator was called, only log lines were written. *)
Theorem rejected_link_did_nothing {L : Libs} (url : string) (e : Env) (s : GAM) :
  existsb (String.eqb (commandType url)) ["playlist"; "collection"; "queue"] = false ->
  result (parseTomahawkLink url e s) = false ->
  after (parseTomahawkLink url e s) = s
  /\ only_logs (calls (parseTomahawkLink url e s)) = true.
Proof.
  intros Hcat. simpl in Hcat.
  apply orb_false_elim in Hcat. destruct Hcat as [Hp Hcat].
  apply orb_false_elim in Hcat. destruct Hcat as [Hc Hcat].
  apply orb_false_elim in Hcat. destruct Hcat as [Hq _].
  revert e s. change (clean_reject (parseTomahawkLink url)).
  unfold parseTomahawkLink.
  destruct (QStr.contains url "tomahawk://");
    [|intros e s _; split; reflexivity].
  cbv zeta.
  change (QStr.first (QStr.split "/" (QStr.replace "%2B" "%20" (QStr.mid 11 url))))
    with (commandType url).
  change (QStr.replace "%2B" "%20" (QStr.mid 11 url)) with (commandText url).
  set (u := fromEncoded (commandText url)).
  apply clean_reject_log.
  destruct ((commandType url =? "load") && hasQueryItem u "xspf");
    [intros e s; simpl; discriminate|].
  destruct ((commandType url =? "load") && hasQueryItem u "jspf");
    [intros e s; simpl; discriminate|].
  rewrite Hp, Hc, Hq.
  destruct (commandType url =? "station"); [apply clean_reject_loadDynamicPlaylist|].
  destruct (commandType url =? "autoplaylist"); [apply clean_reject_loadDynamicPlaylist|].
  destruct (commandType url =? "search"); [apply clean_reject_handleSearchCommand|].
  destruct (commandType url =? "play"); [apply clean_reject_handlePlayCommand|].
  destruct (commandType url =? "bookmark"); [apply clean_reject_handlePlayCommand|].
  destruct (commandType url =? "open"); [apply clean_reject_handleOpenCommand|].
  intros e s _. split; reflexivity.
Qed.

(** The theorem on a play link that names an album instead of a track. *)
Lemma rejected_link_did_nothing_witness :
  result (parseTomahawkLink "tomahawk://play/album?title=Absolution" idleEnv init) = false
  /\ after (parseTomahawkLink "tomahawk://play/album?title=Absolution" idleEnv init) = init
  /\ only_logs (calls (parseTomahawkLink "tomahawk://play/album?title=Absolution"
                                         idleEnv init)) = true.
Proof.
  assert (Hr : result (parseTomahawkLink "tomahawk://play/album?title=Absolution"
                                         idleEnv init) = false) by reflexivity.
  split; [exact Hr|].
  apply (rejected_link_did_nothing "tomahawk://play/album?title=Absolution" idleEnv init);
    [reflexivity | exact Hr].
Defined.

(** ** What no link can do *)

Section Discreet.
Context {L : Libs}.

Lemma discreet_ret {A} (a : A) : discreet (ret a).
Proof. intros e s. repeat split. Qed.

Lemma discreet_emit ev : is_reserved ev = false -> discreet (emit ev).
Proof. intros H e s. repeat split. simpl. now rewrite H. Qed.

Lemma discreet_ask : discreet ask.
Proof. intros e s. repeat split. Qed.

Lemma discreet_fresh : discreet fresh.
Proof. intros e s. repeat split. Qed.

Lemma discreet_set_waitingToPlay q : discreet (set_waitingToPlay q).
Proof. intros e s. repeat split. Qed.

Lemma discreet_bind {A B} (c : M A) (k : A -> M B) :
  discreet c -> (forall a, discreet (k a)) -> discreet (bind c k).
Proof.
  intros Hc Hk e s. rewrite bind_after, bind_calls.
  destruct (Hc e s) as (H1 & H2 & H3).
  destruct (Hk (result (c e s)) e (after (c e s))) as (H1' & H2' & H3').
  repeat split; try congruence.
  rewrite forallb_app, H3, H3'. reflexivity.
Qed.

(** Decomposes a goal on a member function along its control flow. *)
Ltac discreetly :=
  repeat
    (cbv zeta;
     match goal with
     | |- discreet (if ?b then _ else _) => destruct b
     | |- discreet (match ?x with _ => _ end) => destruct x
     | H : discreet ?c |- discreet ?c => exact H
     | |- discreet (bind _ _) => apply discreet_bind; [|intros]
     | |- discreet (ret _) => apply discreet_ret
     | |- discreet (log _) => apply discreet_emit; reflexivity
     | |- discreet (emit _) => apply discreet_emit; reflexivity
     | |- discreet ask => apply discreet_ask
     | |- discreet fresh => apply discreet_fresh
     | |- discreet (set_waitingToPlay _) => apply discreet_set_waitingToPlay
     end).

Lemma discreet_doQueueAdd parts its : discreet (doQueueAdd parts its).
Proof.
  unfold doQueueAdd, queueSpotify, openSpotifyLink, Query_get, setHintIfAny,
    handleOpenTrack.
  discreetly.
Qed.

Lemma discreet_handlePlayCommand u : discreet (handlePlayCommand u).
Proof. unfold handlePlayCommand, playSpotify, Query_get, setHintIfAny. discreetly. Qed.

Lemma discreet_loadDynamicPlaylist u station : discreet (loadDynamicPlaylist u station).
Proof. unfold loadDynamicPlaylist. discreetly. Qed.

Lemma discreet_parseTomahawkLink url : discreet (parseTomahawkLink url).
Proof.
  pose proof discreet_handlePlayCommand as Hplay.
  pose proof discreet_doQueueAdd as Hadd.
  pose proof discreet_loadDynamicPlaylist as Hdyn.
  unfold parseTomahawkLink.
  destruct (QStr.contains url "tomahawk://"); [|discreetly].
  cbv zeta.
  set (u := fromEncoded (QStr.replace "%2B" "%20" (QStr.mid 11 url))).
  set (cmdType := QStr.first (QStr.split "/" (QStr.replace "%2B" "%20" (QStr.mid 11 url)))).
  apply discreet_bind; [discreetly|intros _].
  destruct ((cmdType =? "load") && hasQueryItem u "xspf"); [discreetly|].
  destruct ((cmdType =? "load") && hasQueryItem u "jspf"); [discreetly|].
  destruct (cmdType =? "playlist"); [unfold handlePlaylistCommand; discreetly|].
  destruct (cmdType =? "collection"); [unfold handleCollectionCommand; discreetly|].
  destruct (cmdType =? "queue").
  { unfold handleQueueCommand. discreetly. apply Hadd. }
  destruct (cmdType =? "station").
  { unfold handleStationCommand. discreetly. apply Hdyn. }
  destruct (cmdType =? "autoplaylist").
  { unfold handleAutoPlaylistCommand. discreetly. apply Hdyn. }
  destruct (cmdType =? "search"); [unfold handleSearchCommand; discreetly|].
  destruct (cmdType =? "play"); [apply Hplay|].
  destruct (cmdType =? "bookmark"); [apply Hplay|].
  destruct (cmdType =? "open").
  { unfold handleOpenCommand. discreetly. apply Hadd. }
  discreetly.
Qed.

End Discreet.

(** X5.  Whatever the link, [parseTomahawkLink] never starts playback
    itself, never touches the bookmarks playlist and never writes the
    clipboard, and it leaves the bookmark slot and the playlist to show as
    they were: playback can start only from a resolution callback. *)
Theorem no_link_plays_or_bookmarks {L : Libs} (url : string) (e : Env) (s : GAM) :
  let r := parseTomahawkLink url e s in
  m_waitingToBookmark (after r) = m_waitingToBookmark s
  /\ m_toShow (after r) = m_toShow s
  /\ forallb (fun ev => negb (is_play ev || is_bookmark_call ev || is_clipboard ev))
             (calls r) = true.
Proof. apply discreet_parseTomahawkLink. Qed.

(** ** A play link and its callbacks *)

(** X6.  A play link for a track without spotify keys is accepted and
    leaves its new query in the play slot.  While that query is not
    playable its callback changes nothing and makes no call, so the query
    stays registered; once it is playable its callback starts playback
    once and empties the slot, after which no callback of any query makes a
    call. *)
Theorem play_link_plays_once (u : QUrl) (e e1 e2 : Env) (s : GAM) (sender : nat) :
  hd_error (commandParts u) = Some "track" ->
  hasQueryItem u "spotifyURI" || hasQueryItem u "spotifyURL" = false ->
  let q := next_id s in
  let s1 := after (handlePlayCommand u e s) in
  let r1 := waitingForResolved q e1 s1 in
  result (handlePlayCommand u e s) = true
  /\ m_waitingToPlay s1 = Some q
  /\ (if playable e1 q
      then calls r1 = [AudioEnginePlay]
           /\ m_waitingToPlay (after r1) = None
           /\ calls (waitingForResolved sender e2 (after r1)) = []
      else r1 = (tt, s1, [])).
Proof.
  intros Hp Hs. cbv zeta. unfold handlePlayCommand.
  destruct (commandParts u) as [|p0 rest]; [discriminate|].
  simpl in Hp. injection Hp as ->. simpl.
  apply orb_false_elim in Hs. destruct Hs as [H1 H2].
  unfold playSpotify. rewrite H1, H2. simpl. unfold setHintIfAny.
  destruct (negb (QStr.isEmpty (f_urlStr (scanTrackFields (queryItems u)))));
    (split; [reflexivity|]; split; [reflexivity|]);
    unfold waitingForResolved;
    cbv [bind ret emit ask get fresh log Query_get set_waitingToPlay after calls
         result fst snd app m_waitingToPlay is_sender negb];
    rewrite Nat.eqb_refl; simpl; destruct (playable e1 (next_id s)); repeat split.
Qed.

(** The theorem on the items of [play/track?artist=Muse&title=Uprising]. *)
Lemma play_link_plays_once_witness :
  calls (waitingForResolved 0 playableEnv
           (after (handlePlayCommand
                     (fromEncoded "play/track?artist=Muse&title=Uprising") idleEnv init)))
  = [AudioEnginePlay].
Proof.
  assert (Hp : hd_error (commandParts (fromEncoded "play/track?artist=Muse&title=Uprising"))
               = Some "track") by reflexivity.
  assert (Hs : hasQueryItem (fromEncoded "play/track?artist=Muse&title=Uprising")
                 "spotifyURI"
               || hasQueryItem (fromEncoded "play/track?artist=Muse&title=Uprising")
                    "spotifyURL" = false) by reflexivity.
  destruct (play_link_plays_once
              (fromEncoded "play/track?artist=Muse&title=Uprising")
              idleEnv playableEnv playableEnv init 0 Hp Hs)
    as (_ & _ & H).
  exact (proj1 H).
Defined.

(** ** The spotify keys *)

Section SpotifyKeys.
Context {L : Libs}.

Lemma spotifyStep_other acc kv : is_spotify_key kv = false -> spotifyStep acc kv = acc.
Proof.
  unfold is_spotify_key, spotifyStep. intros H.
  apply orb_false_elim in H. destruct H as [H1 H2]. now rewrite H1, H2.
Qed.

Lemma spotifyStep_key acc kv : is_spotify_key kv = true -> spotifyStep acc kv = snd kv.
Proof.
  unfold is_spotify_key, spotifyStep. intros H.
  destruct (fst kv =? "spotifyURL"); [reflexivity|].
  simpl in H. now rewrite H.
Qed.

Lemma fold_spotifyStep_none post acc :
  forallb (fun kv => negb (is_spotify_key kv)) post = true ->
  fold_left spotifyStep post acc = acc.
Proof.
  revert acc. induction post as [|kv post IH]; intros acc H; [reflexivity|].
  simpl in H. apply andb_prop in H. destruct H as [Hk Hrest].
  apply negb_true_iff in Hk. simpl. rewrite (spotifyStep_other _ _ Hk). now apply IH.
Qed.

(** The queue handler keeps the value of the last spotify item. *)
Lemma fold_spotifyStep_last pre kv post acc :
  is_spotify_key kv = true ->
  forallb (fun kv => negb (is_spotify_key kv)) post = true ->
  fold_left spotifyStep (pre ++ kv :: post) acc = snd kv.
Proof.
  intros Hk Hpost. rewrite fold_left_app. simpl.
  rewrite (spotifyStep_key _ _ Hk). now apply fold_spotifyStep_none.
Qed.

Lemma has_spotify_key items pre kv post :
  items = (pre ++ kv :: post)%list -> is_spotify_key kv = true ->
  existsb (fun p => fst p =? "spotifyURI") items
  || existsb (fun p => fst p =? "spotifyURL") items = true.
Proof.
  intros -> Hk. rewrite !existsb_app. simpl.
  unfold is_spotify_key in Hk.
  destruct (fst kv =? "spotifyURI"), (fst kv =? "spotifyURL"); simpl in *;
    try discriminate; rewrite ?orb_true_r; reflexivity.
Qed.

End SpotifyKeys.

(** X7.  When the query items of a track command contain a spotify key
    ([spotifyURL] or [spotifyURI]) the other items are not looked at: no
    query is built, no member changes and the only call creates a spotify
    parser.  The queue and open commands give it the value of the last
    spotify item, provided it is not empty; the play command gives it the
    first [spotifyURI] value if there is one and the first [spotifyURL]
    value otherwise, empty or not. *)
Theorem spotify_keys_take_over {L : Libs} (u : QUrl) (parts : list string)
        (pre post : list (string * string)) (kv : string * string) (e : Env) (s : GAM) :
  hd_error parts = Some "track" ->
  hd_error (commandParts u) = Some "track" ->
  queryItems u = (pre ++ kv :: post)%list ->
  is_spotify_key kv = true ->
  forallb (fun kv => negb (is_spotify_key kv)) post = true ->
  QStr.isEmpty (snd kv) = false ->
  doQueueAdd parts (queryItems u) e s
  = (true, s, [SpotifyParserNew (snd kv) SlotHandleOpenTrack])
  /\ handlePlayCommand u e s
     = (true, s, [SpotifyParserNew
                    (if hasQueryItem u "spotifyURI"
                     then queryItemValue u "spotifyURI"
                     else queryItemValue u "spotifyURL") SlotSpotifyToPlay]).
Proof.
  intros Hparts Hp Hitems Hk Hpost Hne. split.
  - unfold doQueueAdd. destruct parts as [|p0 rest]; [discriminate|].
    simpl in Hparts. injection Hparts as ->. simpl.
    unfold queueSpotify. rewrite Hitems, (fold_spotifyStep_last _ _ _ _ Hk Hpost), Hne.
    reflexivity.
  - unfold handlePlayCommand. destruct (commandParts u) as [|p0 rest]; [discriminate|].
    simpl in Hp. injection Hp as ->. simpl.
    unfold playSpotify.
    pose proof (has_spotify_key _ _ _ _ Hitems Hk) as Hhas.
    fold (hasQueryItem u "spotifyURI") in Hhas. fold (hasQueryItem u "spotifyURL") in Hhas.
    destruct (hasQueryItem u "spotifyURI"), (hasQueryItem u "spotifyURL");
      simpl in *; try discriminate; reflexivity.
Qed.

(** The theorem on items that carry a title, a [spotifyURI] and then a
    [spotifyURL]: the queue takes the URL, the play command the URI. *)
Lemma spotify_keys_take_over_witness :
  doQueueAdd ["track"]
    [("title", "Uprising"); ("spotifyURI", "spotify:track:1"); ("spotifyURL", "http://s/2")]
    idleEnv init
  = (true, init, [SpotifyParserNew "http://s/2" SlotHandleOpenTrack])
  /\ handlePlayCommand
       (mkQUrl "play/track"
          [("title", "Uprising"); ("spotifyURI", "spotify:track:1");
           ("spotifyURL", "http://s/2")]) idleEnv init
     = (true, init, [SpotifyParserNew "spotify:track:1" SlotSpotifyToPlay]).
Proof.
  exact (spotify_keys_take_over
           (mkQUrl "play/track"
              [("title", "Uprising"); ("spotifyURI", "spotify:track:1");
               ("spotifyURL", "http://s/2")])
           ["track"] [("title", "Uprising"); ("spotifyURI", "spotify:track:1")] []
           ("spotifyURL", "http://s/2") idleEnv init
           eq_refl eq_refl eq_refl eq_refl eq_refl eq_refl).
Defined.

(** ** Url lists in the queue *)

(** X8.  A track command for the queue whose items carry no spotify value
    and no title, artist or album is treated as a list of urls, of which
    only the first [url] item is used: without a [url] item the command is
    rejected and nothing happens; a first url on the local file system is
    accepted and nothing is queued; otherwise one query named after the
    url's file is given the url as result hint, resolved and appended to
    the queue.  In no case is a query registered for playback. *)
Theorem queue_url_list_uses_first_url {L : Libs} (parts : list string)
        (items : list (string * string)) (e : Env) (s : GAM) :
  hd_error parts = Some "track" ->
  fold_left spotifyStep items EmptyString = EmptyString ->
  QStr.isEmpty (lastValue "title" items) && QStr.isEmpty (lastValue "artist" items)
  && QStr.isEmpty (lastValue "album" items) = true ->
  doQueueAdd parts items e s
  = match find (fun kv => fst kv =? "url") items with
    | None => (false, s, [])
    | Some kv =>
        if QStr.startsWith (fromUserInput (snd kv)) "file://" then (true, s, [])
        else (true,
              mkGAM (m_waitingToPlay s) (m_waitingToBookmark s) (m_toShow s)
                    (S (next_id s)),
              [QueryGet (next_id s) EmptyString (urlBaseName (snd kv)) EmptyString;
               SetResultHint (next_id s) (fromUserInput (snd kv));
               PipelineResolve (next_id s); QueueAppend (next_id s); ShowQueue])
    end.
Proof.
  intros Hp Hs Hf. unfold doQueueAdd.
  destruct parts as [|p0 rest]; [discriminate|].
  simpl in Hp. injection Hp as ->. rewrite String.eqb_refl.
  unfold queueSpotify. rewrite Hs.
  rewrite (scan_last items). cbn [f_title f_artist f_album f_urlStr].
  apply andb_prop in Hf. destruct Hf as [Hf Hal].
  apply andb_prop in Hf. destruct Hf as [Ht Ha].
  rewrite Ht, Ha, Hal.
  destruct (find (fun kv => fst kv =? "url") items) as [kv|]; [|reflexivity].
  destruct (QStr.startsWith (fromUserInput (snd kv)) "file://"); reflexivity.
Qed.

(** The theorem on two urls: only the first is queued. *)
Lemma queue_url_list_uses_first_url_witness :
  doQueueAdd ["track"] [("url", "http://a.org/one.mp3"); ("url", "http://a.org/two.mp3")]
             idleEnv init
  = (true, mkGAM None None None 1,
     [QueryGet 0 EmptyString "one" EmptyString; SetResultHint 0 "http://a.org/one.mp3";
      PipelineResolve 0; QueueAppend 0; ShowQueue]).
Proof.
  exact (queue_url_list_uses_first_url ["track"]
           [("url", "http://a.org/one.mp3"); ("url", "http://a.org/two.mp3")]
           idleEnv init eq_refl eq_refl eq_refl).
Defined.

(** ** Queue and open commands *)

(** X9.  A queue link [queue/add/<rest>] does to the members and to the
    collaborators exactly what the open link [open/<rest>] with the same
    query items does; the two differ only in what they report: the queue
    link always false, the open link the outcome of the addition. *)
Theorem queue_add_acts_like_open {L : Libs} (uq uo : QUrl) (e : Env) (s : GAM) :
  commandParts uo <> [] ->
  commandParts uq = "add" :: commandParts uo ->
  queryItems uq = queryItems uo ->
  after (handleQueueCommand uq e s) = after (handleOpenCommand uo e s)
  /\ calls (handleQueueCommand uq e s) = calls (handleOpenCommand uo e s)
  /\ result (handleQueueCommand uq e s) = false
  /\ result (handleOpenCommand uo e s)
     = result (doQueueAdd (commandParts uo) (queryItems uo) e s).
Proof.
  intros Hne Hparts Hitems. unfold handleQueueCommand, handleOpenCommand.
  rewrite Hparts, Hitems. simpl.
  destruct (commandParts uo) as [|p0 rest]; [congruence|].
  rewrite bind_after, bind_calls, bind_result. simpl.
  rewrite app_nil_r. repeat split.
Qed.

(** The theorem on [queue/add/track] and [open/track] for one title. *)
Lemma queue_add_acts_like_open_witness :
  calls (handleQueueCommand (mkQUrl "queue/add/track" [("title", "Uprising")]) idleEnv init)
  = calls (handleOpenCommand (mkQUrl "open/track" [("title", "Uprising")]) idleEnv init)
  /\ result (handleQueueCommand (mkQUrl "queue/add/track" [("title", "Uprising")])
                                idleEnv init) = false
  /\ result (handleOpenCommand (mkQUrl "open/track" [("title", "Uprising")])
                               idleEnv init) = true.
Proof.
  assert (Hne : commandParts (mkQUrl "open/track" [("title", "Uprising")]) <> [])
    by discriminate.
  destruct (queue_add_acts_like_open
              (mkQUrl "queue/add/track" [("title", "Uprising")])
              (mkQUrl "open/track" [("title", "Uprising")]) idleEnv init
              Hne eq_refl eq_refl) as (_ & Hc & Hq & _).
  split; [exact Hc|]. split; [exact Hq | reflexivity].
Defined.

(** ** Opening a track and the play slot *)

Lemma handleOpenTrack_eq q e s :
  handleOpenTrack q e s
  = if isPlaying e then (tt, s, [QueueAppend q; ShowQueue])
    else (tt, mkGAM (Some q) (m_waitingToBookmark s) (m_toShow s) (next_id s),
          [QueueAppend q; ShowQueue; ConnectResolvingFinished q]).
Proof.
  unfold handleOpenTrack. cbv [bind emit ask ret set_waitingToPlay app].
  destruct (isPlaying e); reflexivity.
Qed.

(** X10.  [handleOpenTrack] always appends the query to the queue and shows
    the queue.  While the engine is idle it also takes over the play slot,
    whatever query a play link had registered there: the callback of the
    opened query then starts playback if the query is playable, and the
    callback of any other query starts nothing.  While the engine is
    playing the slot is left as it was and no callback is connected. *)
Theorem open_track_takes_slot_when_idle (q other : nat) (e e1 : Env) (s : GAM) :
  other <> q ->
  let r := handleOpenTrack q e s in
  (if isPlaying e
   then r = (tt, s, [QueueAppend q; ShowQueue])
   else calls r = [QueueAppend q; ShowQueue; ConnectResolvingFinished q]
        /\ m_waitingToPlay (after r) = Some q
        /\ calls (waitingForResolved q e1 (after r))
           = (if playable e1 q then [AudioEnginePlay] else [])
        /\ calls (waitingForResolved other e1 (after r)) = []).
Proof.
  intros Hne. cbv zeta. rewrite handleOpenTrack_eq.
  destruct (isPlaying e); [reflexivity|].
  split; [reflexivity|]. split; [reflexivity|].
  rewrite !waitingForResolved_calls. cbn [after fst snd m_waitingToPlay is_sender].
  rewrite Nat.eqb_refl. apply Nat.eqb_neq in Hne. rewrite Nat.eqb_sym, Hne.
  split; reflexivity.
Qed.

(** The theorem after two play links, when the slot holds query 1: opening
    query 5 while idle displaces it. *)
Lemma open_track_takes_slot_when_idle_witness :
  m_waitingToPlay (fst (run twoPlayLinks)) = Some 1
  /\ calls (waitingForResolved 1 playableEnv
              (after (handleOpenTrack 5 idleEnv (fst (run twoPlayLinks))))) = [].
Proof.
  split; [reflexivity|].
  assert (Hne : 1 <> 5) by discriminate.
  exact (proj2 (proj2 (proj2 (open_track_takes_slot_when_idle 5 1 idleEnv playableEnv
                                (fst (run twoPlayLinks)) Hne)))).
Defined.

(** ** Bookmarking while the bookmarks playlist is missing *)

(** X11.  [handleBookmarkCommand] on a track command, while there is no
    bookmarks playlist, parks the new query in the bookmark slot and asks
    for the playlist to be created.  When the creation is reported, the
    parked query is appended to the new playlist as one entry, the slot is
    emptied and the playlist is remembered for display; [showPlaylist]
    then shows it once and forgets it, so that a second [showPlaylist]
    does nothing.  A second report of the creation finds the slot empty
    and fails the assertion. *)
Theorem deferred_bookmark_completes (u : QUrl) (pl : nat) (e e1 e2 : Env) (s : GAM) :
  hd_error (commandParts u) = Some "track" ->
  bookmarksPlaylist e = None ->
  let q := next_id s in
  let r1 := handleBookmarkCommand u e s in
  let r2 := bookmarkPlaylistCreated pl e1 (after r1) in
  let r3 := showPlaylist e2 (after r2) in
  result r1 = true
  /\ m_waitingToBookmark (after r1) = Some q
  /\ no_bookmark_call (calls r1) = false
  /\ result r2 = Some tt
  /\ calls r2 = [PlaylistAddEntry pl q (match firstResultDuration e1 q with
                                        | Some d => d
                                        | None => 0
                                        end);
                 ConnectRevisionLoaded pl]
  /\ m_waitingToBookmark (after r2) = None
  /\ m_toShow (after r2) = Some pl
  /\ result (bookmarkPlaylistCreated pl e1 (after r2)) = None
  /\ calls r3 = [ViewShow pl]
  /\ m_toShow (after r3) = None
  /\ showPlaylist e2 (after r3) = (tt, after r3, []).
Proof.
  intros Hp Hb. cbv zeta. unfold handleBookmarkCommand.
  destruct (commandParts u) as [|p0 rest]; [discriminate|].
  simpl in Hp. injection Hp as ->. simpl.
  unfold setHintIfAny.
  destruct e as [ip bk pbl frd]. simpl in Hb. subst bk.
  destruct (negb (QStr.isEmpty (f_urlStr (scanTrackFields (queryItems u)))));
    repeat split.
Qed.

(** The theorem on the items of [bookmark/track?artist=Muse&title=Uprising],
    the playlist being created as number 7. *)
Lemma deferred_bookmark_completes_witness :
  calls (bookmarkPlaylistCreated 7 idleEnv
           (after (handleBookmarkCommand
                     (mkQUrl "bookmark/track" [("artist", "Muse"); ("title", "Uprising")])
                     idleEnv init)))
  = [PlaylistAddEntry 7 0 0; ConnectRevisionLoaded 7].
Proof.
  destruct (deferred_bookmark_completes
              (mkQUrl "bookmark/track" [("artist", "Muse"); ("title", "Uprising")])
              7 idleEnv idleEnv idleEnv init eq_refl eq_refl)
    as (_ & _ & _ & _ & H & _).
  exact H.
Defined.

(** ** Sharing a station and building it again *)

Section Sharing.
Context {L : Libs}.

(** Proves that one of the canonical names yields the control at hand. *)
Ltac try_key k :=
  exists k; split; [repeat (first [left; reflexivity | right]) | reflexivity].

Ltac try_keys :=
  first [ try_key "artist" | try_key "artist_limitto" | try_key "description"
        | try_key "variety"
        | try_key "tempo" | try_key "tempo_max"
        | try_key "duration" | try_key "duration_max"
        | try_key "loudness" | try_key "loudness_max"
        | try_key "danceability" | try_key "danceability_max"
        | try_key "energy" | try_key "energy_max"
        | try_key "artist_familiarity" | try_key "artist_familiarity_max"
        | try_key "artist_hotttnesss" | try_key "artist_hotttnesss_max"
        | try_key "song_hotttnesss" | try_key "song_hotttnesss_max"
        | try_key "longitude" | try_key "longitude_max"
        | try_key "latitude" | try_key "latitude_max"
        | try_key "key" | try_key "mode" | try_key "mood" | try_key "style"
        | try_key "song" ].

(** Whatever name produced a control, one of the canonical names produces
    the same control from the same value. *)
Lemma controlOf_canonical kv c :
  controlOf kv = Some c ->
  exists k, In k canonical_keys /\ controlOf (k, snd kv) = Some c.
Proof.
  destruct kv as [k v]. unfold controlOf at 1. cbn [fst snd]. unfold extra.
  destruct (QStr.endsWith k "_max");
    repeat match goal with
           | |- (if ?b then _ else _) = Some _ -> _ => destruct b
           end;
    intros H; try discriminate; injection H as <-; try_keys.
Qed.

(** With distinct codes, the encoder's test holds exactly for the Max
    enumerators. *)
Lemma isMaxParam_spec p :
  (forall p q : PlaylistParam, param_int p = param_int q -> p = q) ->
  isMaxParam (param_int p)
  = match bound_of_param p with Upper => true | _ => false end.
Proof.
  intros Hinj. destruct p; unfold isMaxParam; cbn [bound_of_param];
    rewrite ?Z.eqb_refl;
    repeat match goal with
           | |- context [(param_int ?a =? param_int ?b)%Z] =>
               replace (param_int a =? param_int b)%Z with false
                 by (symmetry; apply Z.eqb_neq; intro HH; apply Hinj in HH; discriminate)
           end;
    rewrite ?orb_true_r; reflexivity.
Qed.

Lemma controlItem_min a v :
  (forall p q : PlaylistParam, param_int p = param_int q -> p = q) ->
  controlItem (mkControl (controlType a) v (param_int (minParam a))) = (paramName a, v).
Proof.
  intros Hinj. unfold controlItem. cbn [selectedType match_ input].
  rewrite (isMaxParam_spec _ Hinj). destruct a; reflexivity.
Qed.

Ltac pick_attr :=
  first [ exists Tempo; reflexivity | exists Duration; reflexivity
        | exists Loudness; reflexivity | exists Danceability; reflexivity
        | exists Energy; reflexivity | exists ArtistFamiliarity; reflexivity
        | exists ArtistHotttnesss; reflexivity | exists SongHotttnesss; reflexivity
        | exists Longitude; reflexivity | exists Latitude; reflexivity ].

Lemma canonical_keys_cases k :
  In k canonical_keys ->
  (exists a, k = paramName a) \/ (exists a, k = paramName a ++ "_max")
  \/ In k ["artist"; "artist_limitto"; "description"; "variety";
           "key"; "mode"; "mood"; "style"; "song"].
Proof.
  intros Hin. unfold canonical_keys in Hin. simpl in Hin.
  repeat (destruct Hin as [<- | Hin]);
    first [ left; pick_attr
          | right; left; pick_attr
          | right; right; solve [repeat (first [left; reflexivity | right])]
          | destruct Hin ].
Qed.

(** The encoder gives a control made from a canonical name that name
    back. *)
Lemma controlItem_canonical k v c :
  codes_distinct L ->
  In k canonical_keys -> controlOf (k, v) = Some c -> controlItem c = (k, v).
Proof.
  intros (Hord & Hinj & Hart & Hsong) Hin.
  destruct (canonical_keys_cases k Hin) as [[a ->] | [[a ->] | Hd]].
  - rewrite controlOf_bare_name, Z.add_0_r. intros H. injection H as <-.
    now apply controlItem_min.
  - rewrite controlOf_max_name, <- Hord. intros H. injection H as <-.
    apply controlItem_max.
  - simpl in Hd.
    repeat (destruct Hd as [<- | Hd]); try destruct Hd;
      intros H; injection H as <-; unfold controlItem;
      cbn [selectedType match_ input];
      rewrite ?(isMaxParam_spec _ Hinj), ?Hsong, ?Z.eqb_refl; try reflexivity.
    replace (artist_int ArtistRadioType =? artist_int ArtistType)%Z with false;
      [reflexivity|].
    symmetry. apply Z.eqb_neq. congruence.
Qed.

(** Building, encoding and building again yields the same control. *)
Lemma controlOf_controlItem kv c :
  codes_distinct L -> controlOf kv = Some c -> controlOf (controlItem c) = Some c.
Proof.
  intros Hcodes Hc.
  destruct (controlOf_canonical kv c Hc) as (k & Hin & Hk).
  now rewrite (controlItem_canonical k (snd kv) c Hcodes Hin Hk).
Qed.

Lemma rebuild_controls cs :
  codes_distinct L -> Forall buildable cs ->
  flat_map contribution (map controlItem cs) = cs.
Proof.
  intros Hcodes Hall. induction Hall as [|c cs [kv Hc] _ IH]; [reflexivity|].
  simpl. rewrite IH. unfold contribution.
  now rewrite (controlOf_controlItem kv c Hcodes Hc).
Qed.

Lemma buildControls_buildable items : Forall buildable (buildControls items).
Proof.
  rewrite buildControls_flat_map.
  induction items as [|kv items IH]; simpl; [constructor|].
  apply Forall_app. split; [|exact IH].
  unfold contribution. destruct (controlOf kv) as [c|] eqn:Hc; constructor; [|constructor].
  now exists kv.
Qed.

Lemma fold_addQueryItem_items (cs : list dyncontrol) l :
  items (fold_left (fun l c => addQueryItem l (fst (controlItem c)) (snd (controlItem c)))
                   cs l)
  = (items l ++ map controlItem cs)%list.
Proof.
  revert l. induction cs as [|c cs IH]; intros l; simpl.
  - now rewrite app_nil_r.
  - rewrite IH. unfold addQueryItem. cbn [items].
    rewrite <- app_assoc. simpl. now destruct (controlItem c).
Qed.

End Sharing.

Lemma codes_distinct_holds : codes_distinct QtEchonest.
Proof.
  split; [exact echonest_order_holds|]. split; [|split; [discriminate | reflexivity]].
  intros p q. destruct p, q; simpl; intros H; try reflexivity; discriminate.
Qed.

(** X12.  With the enumerations' codes distinct and ordered, the controls
    of a station survive being shared: the name and value the encoder of
    [copyPlaylistToClipboard] writes for a control the builder made lead
    the builder to the same control again, whatever the name it was first
    built from; so encoding the controls built from a list of query items
    and building from the result gives the same controls. *)
Theorem built_controls_survive_sharing {L : Libs} (its : list (string * string)) :
  codes_distinct L ->
  buildControls (map controlItem (buildControls its)) = buildControls its
  /\ (forall kv c, controlOf kv = Some c ->
                   In (fst (controlItem c)) canonical_keys
                   /\ snd (controlItem c) = snd kv
                   /\ controlOf (controlItem c) = Some c).
Proof.
  intros Hcodes. split.
  - rewrite (buildControls_flat_map (map controlItem (buildControls its))).
    apply rebuild_controls; [exact Hcodes | apply buildControls_buildable].
  - intros kv c Hc.
    destruct (controlOf_canonical kv c Hc) as (k & Hin & Hk).
    rewrite (controlItem_canonical k (snd kv) c Hcodes Hin Hk).
    cbn [fst snd]. repeat split; assumption.
Qed.

(** The theorem with libechonest's numbering, on parameters written with
    names that merely start with an attribute's name. *)
Lemma built_controls_survive_sharing_witness :
  map controlItem (buildControls [("tempo_min", "90"); ("energy_at_most_max", "0.5")])
  = [("tempo", "90"); ("energy_max", "0.5")]
  /\ buildControls
       (map controlItem (buildControls [("tempo_min", "90"); ("energy_at_most_max", "0.5")]))
     = buildControls [("tempo_min", "90"); ("energy_at_most_max", "0.5")].
Proof.
  split; [reflexivity|].
  exact (proj1 (built_controls_survive_sharing
                  [("tempo_min", "90"); ("energy_at_most_max", "0.5")]
                  codes_distinct_holds)).
Defined.

(** X13.  A shared station can be created again from its link: for a
    playlist of an echonest generator whose controls the builder can
    produce, [copyPlaylistToClipboard] returns a link on the origin whose
    path is [station/create/] for a station and [autoplaylist/create/] for
    an autoplaylist, and [loadDynamicPlaylist] on that path and the link's
    query items creates one playlist with the same title, mode and type and
    commits one revision with the same controls in the same order. *)
Theorem shared_station_is_rebuilt {L : Libs} (playlist : DynPlaylistInfo)
        (e e' : Env) (s s' : GAM) :
  codes_distinct L ->
  pl_generatorType playlist = "echonest" ->
  Forall buildable (pl_controls playlist) ->
  let station := match pl_mode playlist with OnDemand => true | Static => false end in
  let path := if station then "station/create/" else "autoplaylist/create/" in
  exists link,
    result (copyPlaylistToClipboard playlist e s) = Some link
    /\ base link = "http://toma.hk/" ++ path
    /\ loadDynamicPlaylist (mkQUrl path (items link)) station e' s'
       = (Some (next_id s'),
          mkGAM (m_waitingToPlay s') (m_waitingToBookmark s') (m_toShow s')
                (S (next_id s')),
          [DynamicPlaylistCreate (next_id s') (pl_title playlist) (pl_mode playlist)
                                 "echonest";
           CreateNewRevision (next_id s') "echonest" (pl_controls playlist)
                             (negb station)]).
Proof.
  intros Hcodes Hgen Hall. cbv zeta.
  unfold copyPlaylistToClipboard. rewrite Hgen. cbn [String.eqb Ascii.eqb Bool.eqb negb].
  eexists. split; [reflexivity|].
  rewrite fold_addQueryItem_base, fold_addQueryItem_items.
  cbn [addQueryItem base items app].
  split; [destruct (pl_mode playlist); reflexivity|].
  assert (Hb : buildControls (("type", "echonest") :: ("title", pl_title playlist)
                              :: map controlItem (pl_controls playlist))
               = pl_controls playlist).
  { rewrite buildControls_flat_map. cbn [flat_map].
    rewrite (rebuild_controls _ Hcodes Hall). reflexivity. }
  unfold loadDynamicPlaylist.
  destruct (pl_mode playlist); cbn [commandParts path QStr.split QStr.mid1 tl];
    simpl; rewrite Hb; reflexivity.
Qed.

(** The theorem on a station with one control, with libechonest's
    numbering. *)
Lemma shared_station_is_rebuilt_witness :
  exists link,
    result (copyPlaylistToClipboard
              (mkDyn OnDemand "echonest" "Dance"
                     [mkControl "Danceability" "0.8" (param_int MinDanceability)])
              idleEnv init) = Some link
    /\ calls (loadDynamicPlaylist (mkQUrl "station/create/" (items link)) true idleEnv init)
       = [DynamicPlaylistCreate 0 "Dance" OnDemand "echonest";
          CreateNewRevision 0 "echonest"
            [mkControl "Danceability" "0.8" (param_int MinDanceability)] false].
Proof.
  assert (Hall : Forall buildable
                   [mkControl "Danceability" "0.8" (param_int MinDanceability)]).
  { constructor; [|constructor]. exists ("danceability", "0.8"). reflexivity. }
  destruct (shared_station_is_rebuilt
              (mkDyn OnDemand "echonest" "Dance"
                     [mkControl "Danceability" "0.8" (param_int MinDanceability)])
              idleEnv idleEnv init init codes_distinct_holds eq_refl Hall)
    as (link & Hl & _ & Hload).
  exists link. split; [exact Hl|]. cbv zeta in Hload. simpl in Hload.
  now rewrite Hload.
Defined.

(** ** Dropped payloads *)

Section Payloads.

Lemma startsWith_iff s p : QStr.startsWith s p = true <-> exists b, s = p ++ b.
Proof.
  revert s. induction p as [|c p IH]; intros s; simpl.
  - split; [intros _; now exists s | reflexivity].
  - destruct s as [|a s].
    + split; [discriminate | intros [b H]; discriminate].
    + split.
      * intros H. apply andb_prop in H. destruct H as [Hc Hs].
        apply Ascii.eqb_eq in Hc. apply IH in Hs. destruct Hs as [b ->].
        subst. now exists b.
      * intros [b H]. injection H as -> ->. rewrite Ascii.eqb_refl. simpl.
        apply IH. now exists b.
Qed.

Lemma contains_iff s p : QStr.contains s p = true <-> exists a b, s = a ++ p ++ b.
Proof.
  split.
  - induction s as [|c s IH]; simpl; intros H.
    + rewrite orb_false_r in H. apply startsWith_iff in H. destruct H as [b Hb].
      exists EmptyString, b. exact Hb.
    + apply orb_prop in H. destruct H as [H | H].
      * apply startsWith_iff in H. destruct H as [b Hb].
        exists EmptyString, b. exact Hb.
      * destruct (IH H) as (a & b & ->). now exists (String c a), b.
  - intros (a & b & ->). induction a as [|c a IH].
    + assert (Hs : QStr.startsWith (p ++ b) p = true) by (apply startsWith_iff; now exists b).
      simpl. destruct (p ++ b); simpl; rewrite Hs; reflexivity.
    + simpl. rewrite IH. apply orb_true_r.
Qed.

Lemma append_assoc (a b c : string) : (a ++ b) ++ c = a ++ (b ++ c).
Proof. induction a as [|x a IH]; simpl; [reflexivity | now rewrite IH]. Qed.

(** A text that contains [p] contains what [p] contains. *)
Lemma contains_trans s p q :
  QStr.contains s p = true -> QStr.contains p q = true -> QStr.contains s q = true.
Proof.
  intros H1 H2. apply contains_iff in H1. apply contains_iff in H2.
  destruct H1 as (a & b & ->). destruct H2 as (a' & b' & ->).
  apply contains_iff. exists (a ++ a'), (b' ++ b).
  now rewrite !append_assoc.
Qed.

Lemma fromUtf8_prefix bytes : exists rest, bytes = fromUtf8 bytes ++ rest.
Proof.
  induction bytes as [|c r [rest IH]]; simpl.
  - now exists EmptyString.
  - destruct (Ascii.eqb c zero).
    + now exists (String c r).
    + exists rest. simpl. now rewrite <- IH.
Qed.

(** What the decoded text contains, the bytes contain. *)
Lemma contains_fromUtf8 bytes p :
  QStr.contains (fromUtf8 bytes) p = true -> QStr.contains bytes p = true.
Proof.
  intros H. apply contains_iff in H. destruct H as (a & b & Hab).
  destruct (fromUtf8_prefix bytes) as [rest Hr].
  apply contains_iff. exists a, (b ++ rest).
  rewrite Hr at 1. rewrite Hab. now rewrite !append_assoc.
Qed.

Lemma text_accepted data :
  hasFormat data "text/plain" = true ->
  QStr.contains (textPlain data) "spotify"
  || QStr.contains (textPlain data) "rdio.com"
  || QStr.contains (textPlain data) "bit.ly" || QStr.contains (textPlain data) "j.mp"
  || QStr.contains (textPlain data) "t.co" || QStr.contains (textPlain data) "rd.io" = true ->
  acceptsMimeData data false = true.
Proof.
  intros Ht H. unfold acceptsMimeData. rewrite Ht.
  match goal with |- (if ?b then _ else _) = _ => destruct b end; [reflexivity|].
  destruct (QStr.contains (textPlain data) "spotify"),
           (QStr.contains (textPlain data) "rdio.com"),
           (QStr.contains (textPlain data) "bit.ly"),
           (QStr.contains (textPlain data) "j.mp"),
           (QStr.contains (textPlain data) "t.co"),
           (QStr.contains (textPlain data) "rd.io"); simpl in *; congruence.
Qed.

Lemma split_nonempty c s : QStr.split c s <> [].
Proof.
  destruct s as [|a s]; simpl; [discriminate|].
  destruct (Ascii.eqb a c); [discriminate|].
  destruct (QStr.split c s); discriminate.
Qed.

(** Joining the parts of a split text with the separator gives the text. *)
Lemma join_split c s : QStr.join (String c EmptyString) (QStr.split c s) = s.
Proof.
  induction s as [|a s IH]; [reflexivity|].
  cbn [QStr.split]. pose proof (split_nonempty c s) as Hne.
  set (sep := String c EmptyString) in *.
  destruct (Ascii.eqb a c) eqn:Hac.
  - apply Ascii.eqb_eq in Hac. subst a.
    destruct (QStr.split c s) as [|h t]; [congruence|].
    change (QStr.join sep (EmptyString :: h :: t))
      with (String c (QStr.join sep (h :: t))).
    now rewrite IH.
  - destruct (QStr.split c s) as [|h t]; [congruence|].
    destruct t as [|h' t].
    + change (QStr.join sep [String a h]) with (String a (QStr.join sep [h])).
      now rewrite IH.
    + change (QStr.join sep (String a h :: h' :: t))
        with (String a (QStr.join sep (h :: h' :: t))).
      now rewrite IH.
Qed.

End Payloads.

(** X14.  Every payload [tracksFromMimeData] does something with (it emits
    the tracks of a structured format, or starts a spotify, rdio or
    shortened-link parser for the text) is one that [acceptsMimeData]
    accepts when not restricted to tracks. *)
Theorem handled_payload_is_accepted (data : QMimeData) (e : Env) (s : GAM) :
  existsb is_work (snd (tracksFromMimeData data e s)) = true ->
  acceptsMimeData data false = true.
Proof.
  unfold tracksFromMimeData.
  destruct (hasFormat data "application/tomahawk.query.list") eqn:Hq.
  { intros _. unfold acceptsMimeData. now rewrite Hq. }
  destruct (hasFormat data "application/tomahawk.result.list") eqn:Hr.
  { intros _. unfold acceptsMimeData. rewrite Hr, ?orb_true_r. reflexivity. }
  destruct (hasFormat data "application/tomahawk.metadata.album") eqn:Hal.
  { intros _. unfold acceptsMimeData. rewrite Hal, ?orb_true_r. reflexivity. }
  destruct (hasFormat data "application/tomahawk.metadata.artist") eqn:Har.
  { intros _. unfold acceptsMimeData. rewrite Har, ?orb_true_r. reflexivity. }
  destruct (hasFormat data "text/plain") eqn:Ht; [|discriminate].
  cbv zeta. unfold handleTrackUrls.
  set (t := fromUtf8 (textPlain data)).
  assert (Hup : forall p, QStr.contains t p = true ->
                          QStr.contains (textPlain data) p = true)
    by (intros p; apply contains_fromUtf8).
  intros Hwork. apply (text_accepted data Ht).
  destruct (QStr.contains t "open.spotify.com/track") eqn:H1.
  { rewrite (contains_trans _ _ "spotify" (Hup _ H1) eq_refl). reflexivity. }
  destruct (QStr.contains t "spotify:track") eqn:H2.
  { rewrite (contains_trans _ _ "spotify" (Hup _ H2) eq_refl). reflexivity. }
  destruct (QStr.contains t "rdio.com") eqn:H3.
  { rewrite (Hup _ H3), ?orb_true_r. reflexivity. }
  destruct (QStr.contains t "bit.ly") eqn:H4.
  { rewrite (Hup _ H4), ?orb_true_r. reflexivity. }
  destruct (QStr.contains t "j.mp") eqn:H5.
  { rewrite (Hup _ H5), ?orb_true_r. reflexivity. }
  destruct (QStr.contains t "t.co") eqn:H6.
  { rewrite (Hup _ H6), ?orb_true_r. reflexivity. }
  destruct (QStr.contains t "rd.io") eqn:H7.
  { rewrite (Hup _ H7), ?orb_true_r. reflexivity. }
  simpl in Hwork. discriminate.
Qed.

(** The theorem on a dropped text with a spotify track and an rdio link. *)
Lemma handled_payload_is_accepted_witness :
  snd (tracksFromMimeData
         (mkMime ["text/plain"] "spotify:track:6JEK0CvvjDjjMUBFoXShNZ") idleEnv init)
  = [Call (Log "Got text/plain mime data:"); Call (Log "Got a list of spotify urls!");
     Call (SpotifyParserTracks ["spotify:track:6JEK0CvvjDjjMUBFoXShNZ"])]
  /\ acceptsMimeData (mkMime ["text/plain"] "spotify:track:6JEK0CvvjDjjMUBFoXShNZ") false
     = true.
Proof.
  split; [reflexivity|].
  exact (handled_payload_is_accepted
           (mkMime ["text/plain"] "spotify:track:6JEK0CvvjDjjMUBFoXShNZ") idleEnv init
           eq_refl).
Defined.

(** X15.  A payload that offers the playlist-entry list format and none of
    the formats [tracksFromMimeData] reads is accepted by
    [acceptsMimeData], restricted to tracks or not, and then ignored: no
    decoder exists for it, nothing is emitted, no member changes. *)
Theorem playlist_entries_accepted_and_ignored (data : QMimeData) (tracksOnly : bool)
        (e : Env) (s : GAM) :
  hasFormat data "application/tomahawk.plentry.list" = true ->
  hasFormat data "application/tomahawk.query.list" = false ->
  hasFormat data "application/tomahawk.result.list" = false ->
  hasFormat data "application/tomahawk.metadata.album" = false ->
  hasFormat data "application/tomahawk.metadata.artist" = false ->
  hasFormat data "text/plain" = false ->
  acceptsMimeData data tracksOnly = true
  /\ tracksFromMimeData data e s = (s, []).
Proof.
  intros Hp Hq Hr Hal Har Ht. unfold acceptsMimeData, tracksFromMimeData.
  rewrite Hp, Hq, Hr, Hal, Har, Ht. split; reflexivity.
Qed.

(** The theorem on a payload with that one format. *)
Lemma playlist_entries_accepted_and_ignored_witness :
  acceptsMimeData (mkMime ["application/tomahawk.plentry.list"] EmptyString) true = true
  /\ tracksFromMimeData (mkMime ["application/tomahawk.plentry.list"] EmptyString)
                        idleEnv init = (init, []).
Proof.
  exact (playlist_entries_accepted_and_ignored
           (mkMime ["application/tomahawk.plentry.list"] EmptyString) true idleEnv init
           eq_refl eq_refl eq_refl eq_refl eq_refl eq_refl).
Defined.

(** X16.  The lines a text is split into, joined again, are the text; so an
    expansion that hands back the urls it was given is handled exactly like
    the text they came from, and when that text was taken as shortened the
    same expansion is requested again, with the same urls. *)
Theorem unexpanded_urls_are_requested_again (urls : string) (e : Env) (s : GAM) :
  QStr.join QStr.newline (QStr.split (ascii_of_nat 10) urls) = urls
  /\ expandedUrls (QStr.split (ascii_of_nat 10) urls) e s = handleTrackUrls urls e s
  /\ (if takenAsShortened urls
      then expandedUrls (QStr.split (ascii_of_nat 10) urls) e s
           = (tt, s, [Log "Got a list of shortened urls!";
                      ShortenedLinkParserNew (QStr.split (ascii_of_nat 10) urls)])
      else expansionRequests (calls (expandedUrls (QStr.split (ascii_of_nat 10) urls) e s))
           = []).
Proof.
  assert (Hj : QStr.join QStr.newline (QStr.split (ascii_of_nat 10) urls) = urls)
    by apply join_split.
  split; [exact Hj|]. unfold expandedUrls. rewrite Hj. split; [reflexivity|].
  destruct (takenAsShortened urls) eqn:Ht.
  - now apply handleTrackUrls_shortened.
  - unfold takenAsShortened in Ht. unfold handleTrackUrls.
    destruct (QStr.contains urls "open.spotify.com/track" || QStr.contains urls "spotify:track");
      [reflexivity|].
    destruct (QStr.contains urls "rdio.com"); [reflexivity|].
    simpl in Ht. rewrite Ht. reflexivity.
Qed.

(** X17.  Restricting acceptance to tracks never accepts more: a payload
    accepted with [tracksOnly] set is accepted without it; and a text
    payload that names a shortener domain is accepted either way. *)
Theorem tracks_only_accepts_less (data : QMimeData) :
  (acceptsMimeData data true = true -> acceptsMimeData data false = true)
  /\ (hasFormat data "text/plain" = true ->
      QStr.contains (textPlain data) "bit.ly" || QStr.contains (textPlain data) "j.mp"
      || QStr.contains (textPlain data) "t.co" || QStr.contains (textPlain data) "rd.io"
      = true ->
      forall tracksOnly, acceptsMimeData data tracksOnly = true).
Proof.
  unfold acceptsMimeData. split.
  - match goal with |- (if ?b then _ else _) = _ -> _ => destruct b end; [reflexivity|].
    destruct (hasFormat data "text/plain"),
             (QStr.contains (textPlain data) "spotify"),
             (QStr.contains (textPlain data) "rdio.com"),
             (QStr.contains (textPlain data) "track"),
             (QStr.contains (textPlain data) "bit.ly"),
             (QStr.contains (textPlain data) "j.mp"),
             (QStr.contains (textPlain data) "t.co"),
             (QStr.contains (textPlain data) "rd.io"); simpl; congruence.
  - intros Ht Hs tracksOnly. rewrite Ht.
    match goal with |- (if ?b then _ else _) = _ => destruct b end; [reflexivity|].
    destruct tracksOnly,
             (QStr.contains (textPlain data) "spotify"),
             (QStr.contains (textPlain data) "rdio.com"),
             (QStr.contains (textPlain data) "track"),
             (QStr.contains (textPlain data) "bit.ly"),
             (QStr.contains (textPlain data) "j.mp"),
             (QStr.contains (textPlain data) "t.co"),
             (QStr.contains (textPlain data) "rd.io"); simpl in *; congruence.
Qed.

(** The theorem on a dropped shortened link, beside an rdio artist link
    that is accepted as a payload but not as a track. *)
Lemma tracks_only_accepts_less_witness :
  acceptsMimeData (mkMime ["text/plain"] "http://bit.ly/xyz") true = true
  /\ acceptsMimeData (mkMime ["text/plain"] "http://rdio.com/artist/Muse/") true = false
  /\ acceptsMimeData (mkMime ["text/plain"] "http://rdio.com/artist/Muse/") false = true.
Proof.
  split; [|split; reflexivity].
  exact (proj2 (tracks_only_accepts_less (mkMime ["text/plain"] "http://bit.ly/xyz"))
           eq_refl eq_refl true).
Defined.
